(** * realm::util::Substituter — variable substitution in text

    A shallow embedding of [realm-core/src/realm/util/substitute.hpp]:
    the parser ([Substituter<A...>::parse]), the compiled template and its
    expansion ([Template::expand], both overloads), the variable table
    ([define] and the three [ProtoDef::operator=] binding forms) and the
    context-argument lookup ([FindArg1] / [FindArg2]).

    Conventions of the embedding:
    - a [std::string_view] is a list of characters, offsets are [nat];
    - a [std::ostream] is a record holding its format flags, the formatting
      state kept outside the flags word, its locale, the bytes written so far
      and the room left in the sink (a write that does not fit throws);
    - a call that may throw returns an [outcome]: [Normal] or [Thrown], each
      with the stream as the call left it;
    - the memory that value bindings point into is an explicit [store];
    - what [parse] hands to the logger is returned with its result. *)

From Stdlib Require Import Ascii String List Arith Lia NArith DecimalString.
From stdpp Require Import base option list gmap strings.

Open Scope nat_scope.

(** ** [std::string_view] *)

Abbreviation text := (list ascii).

(** A string literal as a view. *)
Definition txt (s : string) : text := list_ascii_of_string s.

(** [sv.find(ch, pos)]: the least offset [i >= pos] with [sv[i] == ch];
    [None] stands for [npos]. *)
Fixpoint sv_find (ch : ascii) (sv : text) (pos : nat) : option nat :=
  match sv with
  | [] => None
  | c :: sv' =>
      match pos with
      | 0 => if decide (c = ch) then Some 0 else S <$> sv_find ch sv' 0
      | S pos' => S <$> sv_find ch sv' pos'
      end
  end.

(** [sv.substr(pos, n)], for [pos <= sv.size()]. *)
Definition sv_substr (sv : text) (pos n : nat) : text := take n (drop pos sv).

(** [sv.substr(pos)], for [pos <= sv.size()]. *)
Definition sv_tail (sv : text) (pos : nat) : text := drop pos sv.

(** [sv[i]], for [i < sv.size()]. *)
Definition sv_at (sv : text) (i : nat) : ascii := nth i sv zero.

(** ** [std::ostream] *)

Inductive locale : Type :=
| locale_classic
| locale_named (name : string).

Record ostream : Type := mk_ostream {
  os_flags : N;            (* std::ios_base::fmtflags, read and set by flags() *)
  os_precision : N;        (* precision(): formatting state outside the flags word *)
  os_locale : locale;      (* getloc() / imbue() *)
  os_buf : text;           (* the bytes written so far *)
  os_space : option nat    (* room left in the sink; None: unbounded *)
}.

Inductive outcome : Type :=
| Normal (os : ostream)
| Thrown (os : ostream).

Definition outcome_stream (r : outcome) : ostream :=
  match r with Normal os | Thrown os => os end.

(** Sequencing of calls that may throw. *)
Definition and_then (r : outcome) (k : ostream → outcome) : outcome :=
  match r with
  | Normal os => k os
  | Thrown os => Thrown os
  end.

Notation "r >>> k" := (and_then r k) (at level 50, left associativity).

(** [out.flags(fl)] *)
Definition set_flags (fl : N) (os : ostream) : ostream :=
  {| os_flags := fl; os_precision := os_precision os; os_locale := os_locale os;
     os_buf := os_buf os; os_space := os_space os |}.

(** [out.precision(p)] *)
Definition set_precision (p : N) (os : ostream) : ostream :=
  {| os_flags := os_flags os; os_precision := p; os_locale := os_locale os;
     os_buf := os_buf os; os_space := os_space os |}.

(** [out.imbue(loc)] *)
Definition imbue (loc : locale) (os : ostream) : ostream :=
  {| os_flags := os_flags os; os_precision := os_precision os; os_locale := loc;
     os_buf := os_buf os; os_space := os_space os |}.

(** [out << s] for a piece of text: the bytes are appended when the sink has
    room for them; otherwise the sink takes what fits and the insertion
    throws. Formatting state is left alone. *)
Definition os_write (s : text) (os : ostream) : outcome :=
  match os_space os with
  | None =>
      Normal {| os_flags := os_flags os; os_precision := os_precision os;
                os_locale := os_locale os; os_buf := os_buf os ++ s;
                os_space := None |}
  | Some room =>
      if length s <=? room then
        Normal {| os_flags := os_flags os; os_precision := os_precision os;
                  os_locale := os_locale os; os_buf := os_buf os ++ s;
                  os_space := Some (room - length s) |}
      else
        Thrown {| os_flags := os_flags os; os_precision := os_precision os;
                  os_locale := os_locale os; os_buf := os_buf os ++ take room s;
                  os_space := Some 0 |}
  end.

(** The flags and precision of a default-constructed stream
    ([skipws | dec], 6). *)
Definition default_flags : N := 4098.
Definition default_precision : N := 6.

(** [std::ostringstream out;] — a fresh, unbounded string stream. It starts
    with the global locale that is current when it is constructed. *)
Definition ostringstream (global : locale) : ostream :=
  {| os_flags := default_flags; os_precision := default_precision;
     os_locale := global; os_buf := []; os_space := None |}.

(** ** Diagnostics *)

Inductive Level : Type := level_warn | level_error.

(** The three messages [parse] logs. *)
Inductive Message : Type :=
| UnterminatedMarker                          (* "Unterminated `@` at end of text" *)
| UnterminatedBrace                           (* "Unterminated `@{`" *)
| UndefinedVariable (name excerpt : text).    (* "Undefined variable `%1` in substitution `%2`" *)

Definition LogEntry : Type := Level * Message.

(** ** FindArg1 / FindArg2 *)

Section FindArg.
Context {ty : Type}.
(** [conv a t]: [std::is_convertible<std::remove_reference<a>::type*, const t*>]. *)
Variable conv : ty → ty → bool.

(** [FindArg2<T, matched, A, B...>::find]: the specialisation for [true]
    returns the first argument; the primary template asks
    [FindArg1<T, B...>] for one of the remaining ones. *)
Definition FindArg2 (matched : bool) (rest : option nat) : option nat :=
  if matched then Some 0 else S <$> rest.

(** [FindArg1<T, A, B...>::find]: the position, in the argument pack, of the
    argument returned. [FindArg1<T>] for an empty pack is declared but
    never defined, so a use of it does not compile: [None]. *)
Fixpoint FindArg1 (T : ty) (pack : list ty) : option nat :=
  match pack with
  | [] => None
  | A :: B => FindArg2 (conv A T) (FindArg1 T B)
  end.
End FindArg.

(** ** The engine: [Substituter<A...>] *)

Section Substituter.
(** The context types [A...] the engine is instantiated with, and the type
    of the objects passed for them at expansion. *)
Context {ty : Type} (conv : ty → ty → bool) (pack : list ty).
Context {obj : Type}.
(** The type of the values that bindings print, with its [operator<<]. *)
Context {T : Type} (put : T → ostream → outcome).

(** The memory value bindings point into: an address holds a value. *)
Definition store : Type := nat → T.

(** [std::function<EvalFunc>], [EvalFunc = void(std::ostream&, A&...)].
    The closure runs against the memory as it is when it is called. *)
Definition EvalFunc : Type := store → list obj → ostream → outcome.

(** [Variables = std::map<std::string_view, std::function<EvalFunc>>] *)
Record Substituter : Type := mk_Substituter {
  m_lenient : bool;
  m_variables : gmap text EvalFunc
}.

(** [Substituter(SubstituterConfig)]: no variable is defined yet. *)
Definition new_Substituter (lenient : bool) : Substituter :=
  {| m_lenient := lenient; m_variables := ∅ |}.

(** [struct Substitution { size_type begin, end; const value_type* var_def; }].
    [var_def] points at an entry of the variable table; entries are never
    changed or erased, so the entry itself is kept. *)
Record Substitution : Type := mk_Substitution {
  s_begin : nat;
  s_end : nat;
  var_def : option (text * EvalFunc)
}.

Record Template : Type := mk_Template {
  m_text : text;
  m_substitutions : list Substitution
}.

(** A default-constructed [Template]. *)
Definition empty_Template : Template :=
  {| m_text := []; m_substitutions := [] |}.

(** *** define *)

Inductive defined : Type :=
| Defined_ok (s : Substituter)
| Runtime_error (what : string)     (* throw std::runtime_error(what) *)
| Ill_formed.                       (* the definition does not compile *)

(** [Substituter::define]: [emplace] inserts unless the name is present. *)
Definition define (name : text) (func : EvalFunc) (s : Substituter) : defined :=
  match m_variables s !! name with
  | Some _ => Runtime_error "Multiple definitions for same variable name"
  | None =>
      Defined_ok {| m_lenient := m_lenient s;
                    m_variables := <[name := func]> (m_variables s) |}
  end.

(** [ProtoDef::operator=(std::function<EvalFunc>)] *)
Definition define_func (name : text) (func : EvalFunc) (s : Substituter) : defined :=
  define name func s.

(** The closure of [ProtoDef::operator=(T* var)]: [out << *var]. *)
Definition value_eval (var : nat) : EvalFunc :=
  fun (mem : store) (_ : list obj) (out : ostream) => put (mem var) out.

(** [ProtoDef::operator=(T* var)] *)
Definition define_value (name : text) (var : nat) (s : Substituter) : defined :=
  define_func name (value_eval var) s.

(** The closure of [ProtoDef::operator=(T C::* var)]:
    [const C& obj = FindArg1<C, A...>::find(arg...); out << obj.*var].
    [k] is the position [FindArg1] selects. *)
Definition field_eval (k : nat) (var : obj → T) : EvalFunc :=
  fun (_ : store) (arg : list obj) (out : ostream) =>
    match arg !! k with
    | Some o => put (var o) out
    | None => Thrown out      (* fewer arguments than context types: not a call *)
    end.

(** [ProtoDef::operator=(T C::* var)]: instantiating the closure
    instantiates [FindArg1<C, A...>]. *)
Definition define_field (name : text) (C : ty) (var : obj → T) (s : Substituter)
  : defined :=
  match FindArg1 conv C pack with
  | None => Ill_formed
  | Some k => define_func name (field_eval k var) s
  end.

(** *** parse *)

(** The local variables of [parse] that live across iterations. *)
Record pstate : Type := mk_pstate {
  p_curr : nat;
  p_substitutions : list Substitution;
  p_error : bool;
  p_log : list LogEntry
}.

Inductive flow : Type :=
| Break (st : pstate)
| Continue (st : pstate).

Section Parse.
Variable self : Substituter.
Variable text_ : text.

Definition log_level : Level :=
  if m_lenient self then level_warn else level_error.

(** [logger.log(log_level, msg); error = true;] and the cursor set to [curr]. *)
Definition report (st : pstate) (msg : Message) (curr : nat) : pstate :=
  {| p_curr := curr;
     p_substitutions := p_substitutions st;
     p_error := true;
     p_log := p_log st ++ [(log_level, msg)] |}.

(** [substitutions.push_back({i, curr, var_def})] *)
Definition record (st : pstate) (i curr : nat) (vd : option (text * EvalFunc))
  : pstate :=
  {| p_curr := curr;
     p_substitutions :=
       p_substitutions st ++ [{| s_begin := i; s_end := curr; var_def := vd |}];
     p_error := p_error st;
     p_log := p_log st |}.

(** The end of the loop body: the name is looked up unless the reference
    is the escape [@@]. *)
Definition lookup_and_record (st : pstate) (i : nat) (ch : ascii)
    (var_name : text) (curr : nat) : flow :=
  if decide (ch = "@"%char) then Continue (record st i curr None)
  else
    match m_variables self !! var_name with
    | None =>
        Continue (report st
                    (UndefinedVariable var_name (sv_substr text_ i (curr - i)))
                    curr)
    | Some func => Continue (record st i curr (Some (var_name, func)))
    end.

(** One iteration of the [for (;;)] loop of [parse]. *)
Definition parse_body (st : pstate) : flow :=
  match sv_find "@" text_ (p_curr st) with
  | None => Break st
  | Some i =>
      if i + 1 =? length text_ then
        Break (report st UnterminatedMarker (p_curr st))
      else
        let ch := sv_at text_ (i + 1) in
        if decide (ch = "{"%char) then
          match sv_find "}" text_ (i + 2) with
          | None => Continue (report st UnterminatedBrace (i + 2))
          | Some j =>
              lookup_and_record st i ch (sv_substr text_ (i + 2) (j - (i + 2)))
                (j + 1)
          end
        else
          lookup_and_record st i ch (sv_substr text_ (i + 1) 1) (i + 2)
  end.

(** The loop; [None] when [fuel] iterations were not enough. *)
Fixpoint parse_loop (fuel : nat) (st : pstate) : option pstate :=
  match fuel with
  | 0 => None
  | S fuel' =>
      match parse_body st with
      | Break st' => Some st'
      | Continue st' => parse_loop fuel' st'
      end
  end.

Definition parse_init : pstate :=
  {| p_curr := 0; p_substitutions := []; p_error := false; p_log := [] |}.

(** What follows the loop: [templ] is assigned unless the call fails. *)
Definition parse_return (templ : Template) (st : pstate)
  : bool * Template * list LogEntry :=
  if p_error st && negb (m_lenient self)
  then (false, templ, p_log st)
  else (true,
        {| m_text := text_; m_substitutions := p_substitutions st |},
        p_log st).

(** [parse(text, templ, logger)]: the value returned, the template as the
    call leaves it, and what was logged. The loop moves the cursor forward
    by two characters or more each time round, so [length text_ + 1]
    iterations are enough ([parse_total] below). *)
Definition parse (templ : Template) : option (bool * Template * list LogEntry) :=
  parse_return templ <$> parse_loop (S (length text_)) parse_init.
End Parse.

(** *** Template::expand *)

Section Expand.
Variable mem : store.
Variable arg : list obj.

(** The body of the range-for loop of [expand], for one substitution;
    [flags] is the local of that name. In a template that [parse] built,
    [curr <= subst.begin <= m_text.size()] ([parse_spans_ordered]): the
    subtraction does not wrap around and [substr] does not throw. *)
Definition expand_body (txt_ : text) (flags : N) (curr : nat) (subst : Substitution)
    (out : ostream) : outcome :=
  os_write (sv_substr txt_ curr (s_begin subst - curr)) out >>> fun out1 =>
  match var_def subst with
  | Some (_, eval_func) =>
      eval_func mem arg out1 >>> fun out2 => Normal (set_flags flags out2)
  | None => os_write (txt "@") out1
  end.

(** The loop over [m_substitutions] and the final [out << m_text.substr(curr)]. *)
Fixpoint expand_loop (txt_ : text) (flags : N) (curr : nat)
    (substs : list Substitution) (out : ostream) : outcome :=
  match substs with
  | [] => os_write (sv_tail txt_ curr) out
  | subst :: rest =>
      expand_body txt_ flags curr subst out >>> expand_loop txt_ flags (s_end subst) rest
  end.

(** [catch (...) { out.flags(flags); throw; }] *)
Definition catch_restore (flags : N) (r : outcome) : outcome :=
  match r with
  | Normal os => Normal os
  | Thrown os => Thrown (set_flags flags os)
  end.

(** [Template::expand(std::ostream&, A...)] *)
Definition expand (templ : Template) (out : ostream) : outcome :=
  let flags := os_flags out in
  catch_restore flags
    (expand_loop (m_text templ) flags 0 (m_substitutions templ) out).

(** [Template::expand(A&&...)]: the string built, or the exception. *)
Definition expand_string (global : locale) (templ : Template) : option text :=
  let out := imbue locale_classic (ostringstream global) in
  match expand templ out with
  | Normal out' => Some (os_buf out')
  | Thrown _ => None
  end.
End Expand.

(** [Template::refers_to] *)
Definition refers_to (templ : Template) (name : text) : bool :=
  existsb (fun subst =>
             match var_def subst with
             | Some (n, _) => bool_decide (n = name)
             | None => false
             end)
          (m_substitutions templ).

(** [Substituter::expand(text, out, arg...)]: the value returned and the
    stream; the outcome is [Thrown] when the expansion throws. *)
Definition expand_text (self : Substituter) (mem : store) (arg : list obj)
    (text_ : text) (out : ostream) : option (bool * outcome) :=
  '(ok, templ, _) ← parse self text_ empty_Template;
  Some (if ok : bool then (true, expand mem arg templ out) else (false, Normal out)).

End Substituter.
(** ** A worked instance

    The example of the header's documentation, [Substituter<const CtxA&,
    const CtxB&>], with two context classes that share a base class:

      struct Base { unsigned id; };
      struct CtxA : Base { unsigned y = 0; };
      struct CtxB : Base { unsigned x = 0; };  *)

Inductive ctx_ty : Type := ty_Base | ty_CtxA | ty_CtxB.

Inductive ctx_obj : Type :=
| CtxA (id y : N)
| CtxB (id x : N).

(** A pointer to a class converts to a pointer to the class or to its base. *)
Definition ex_conv (a t : ctx_ty) : bool :=
  match a, t with
  | ty_Base, ty_Base | ty_CtxA, ty_CtxA | ty_CtxB, ty_CtxB => true
  | ty_CtxA, ty_Base | ty_CtxB, ty_Base => true
  | _, _ => false
  end.

Definition ex_pack : list ctx_ty := [ty_CtxA; ty_CtxB].

(** [out << n] for an unsigned number, in decimal. *)
Definition ex_put (n : N) (out : ostream) : outcome :=
  os_write (txt (NilZero.string_of_uint (N.to_uint n))) out.

(** The members [Base::id], [CtxA::y] and [CtxB::x]. *)
Definition ex_id (o : ctx_obj) : N := match o with CtxA id _ | CtxB id _ => id end.
Definition ex_y (o : ctx_obj) : N := match o with CtxA _ y => y | CtxB _ _ => 0%N end.
Definition ex_x (o : ctx_obj) : N := match o with CtxB _ x => x | CtxA _ _ => 0%N end.

(** The closure [[](std::ostream& out, const CtxA& a, const CtxB&) { out << a.y; }]. *)
Definition ex_eval_y : EvalFunc (obj:=ctx_obj) (T:=N) :=
  fun _ arg out =>
    match arg with
    | a :: _ => ex_put (ex_y a) out
    | [] => Thrown out
    end.

(** A closure that replaces the flags: [out.flags(std::ios_base::hex)]. *)
Definition ex_eval_hex : EvalFunc (obj:=ctx_obj) (T:=N) :=
  fun _ _ out => Normal (set_flags 8 out).

(** A closure that leaves a precision set: [out << std::setprecision(3)]. *)
Definition ex_eval_precision : EvalFunc (obj:=ctx_obj) (T:=N) :=
  fun _ _ out => Normal (set_precision 3 out).

(** A closure that throws after changing the flags. *)
Definition ex_eval_throw : EvalFunc (obj:=ctx_obj) (T:=N) :=
  fun _ _ out => Thrown (set_flags 8 out).

(** The engine of a definition that is expected to succeed. *)
Definition ex_defined (d : defined (obj:=ctx_obj) (T:=N)) : Substituter :=
  match d with
  | Defined_ok s => s
  | _ => new_Substituter false
  end.

(** [subst["x"] = &CtxB::x; subst["y"] = [](...) { out << a.y; };] *)
Definition ex_subst : Substituter (obj:=ctx_obj) (T:=N) :=
  ex_defined (define_func (txt "y") ex_eval_y
    (ex_defined (define_field ex_conv ex_pack ex_put (txt "x") ty_CtxB ex_x
      (new_Substituter false)))).

(** A lenient engine with one value binding: [subst["x"] = &v], [v] at
    address 0. *)
Definition ex_lenient : Substituter (obj:=ctx_obj) (T:=N) :=
  ex_defined (define_value ex_put (txt "x") 0 (new_Substituter true)).

(** A strict engine with [subst["@@"] = &v]. *)
Definition ex_at_at : Substituter (obj:=ctx_obj) (T:=N) :=
  ex_defined (define_value ex_put (txt "@@") 0 (new_Substituter false)).

(** A memory with 7 at every address. *)
Definition ex_mem : store (T:=N) := fun _ => 7%N.

(** * The vocabulary of the statements *)

(** [reference ref name]: the text [ref] is a reference to the variable
    [name], in the braced form [@{name}] or the short form [@c]. *)
Inductive reference : text → text → Prop :=
| reference_braced (name : text) :
    "}"%char ∉ name → reference (txt "@{" ++ name ++ txt "}") name
| reference_short (c : ascii) :
    c ≠ "{"%char → c ≠ "@"%char → reference ["@"%char; c] [c].

(** A call made with the format flags put back to [flags] when it is over,
    whether it returned or threw. *)
Definition call_restoring (flags : N) (r : outcome) : outcome :=
  match r with
  | Normal os => Normal (set_flags flags os)
  | Thrown os => Thrown (set_flags flags os)
  end.

(** A diagnostic about an undefined variable. *)
Definition is_undefined (e : LogEntry) : bool :=
  match e.2 with
  | UndefinedVariable _ _ => true
  | _ => false
  end.

Section Vocabulary.
Context {obj T : Type}.
Implicit Types (self : Substituter (obj:=obj) (T:=T)) (st : pstate (obj:=obj) (T:=T)).
Implicit Types (subst : Substitution (obj:=obj) (T:=T)).

(** What the claims say about the substitutions of a template: each span is
    non-empty, starts no earlier than [lo] and no earlier than the one before
    it ends, and the last one ends within [hi]. *)
Fixpoint spans_chain (lo hi : nat)
    (substs : list (Substitution (obj:=obj) (T:=T))) : Prop :=
  match substs with
  | [] => lo ≤ hi
  | s :: rest => lo ≤ s_begin s ∧ s_begin s < s_end s ∧ spans_chain (s_end s) hi rest
  end.

(** The loop invariant of [parse], for the text [text_]. *)
Definition parse_inv (text_ : text) st : Prop :=
  p_curr st ≤ length text_ ∧ spans_chain 0 (p_curr st) (p_substitutions st).

(** What a logged message says about the text and the variable table. *)
Definition justified (self : Substituter (obj:=obj) (T:=T)) (text_ : text)
    (msg : Message) : Prop :=
  match msg with
  | UnterminatedMarker => last text_ = Some "@"%char
  | UnterminatedBrace =>
      ∃ i, text_ !! i = Some "@"%char ∧ text_ !! (i + 1) = Some "{"%char ∧
           ∀ k, i + 2 ≤ k → text_ !! k ≠ Some "}"%char
  | UndefinedVariable name excerpt =>
      m_variables self !! name = None ∧ reference excerpt name ∧
      ∃ i, excerpt = sv_substr text_ i (length excerpt)
  end.

(** The loop invariant of [parse] for [error] and the log. *)
Definition log_inv self (text_ : text) (st : pstate (obj:=obj) (T:=T)) : Prop :=
  (p_error st = true ↔ p_log st ≠ []) ∧
  Forall (λ e : LogEntry, e.1 = log_level self ∧ justified self text_ e.2) (p_log st).

(** A span moved [k] characters to the right. *)
Definition shift_subst (k : nat) subst : Substitution (obj:=obj) (T:=T) :=
  {| s_begin := k + s_begin subst; s_end := k + s_end subst; var_def := var_def subst |}.

(** The state of the loop over [head ++ rest] that has arrived at the end of
    [head] in state [st1] and has since run on [rest] as [st] says. *)
Definition resume (st1 st : pstate (obj:=obj) (T:=T)) : pstate :=
  {| p_curr := p_curr st1 + p_curr st;
     p_substitutions :=
       p_substitutions st1 ++ map (shift_subst (p_curr st1)) (p_substitutions st);
     p_error := p_error st1 || p_error st;
     p_log := p_log st1 ++ p_log st |}.

(** [resume] on the state an iteration ends in. *)
Definition resume_flow (st1 : pstate (obj:=obj) (T:=T)) (fl : flow) : flow :=
  match fl with
  | Break st => Break (resume st1 st)
  | Continue st => Continue (resume st1 st)
  end.

(** Every marker of [head] starts an escape or a reference that ends within
    [head]: parsing [head] logs no unterminated marker or brace. *)
Definition terminated self (head : text) : Prop :=
  ∃ st, parse_loop self head (S (length head)) parse_init = Some st ∧
        forallb is_undefined (p_log st) = true.

(** What [parse] returns of the state of the loop. *)
Definition found st : list Substitution * bool * list LogEntry :=
  (p_substitutions st, p_error st, p_log st).

(** The state [st] with the cursor at [curr]. *)
Definition set_curr (curr : nat) st : pstate :=
  {| p_curr := curr; p_substitutions := p_substitutions st;
     p_error := p_error st; p_log := p_log st |}.

(** An evaluator made to run with the flags [flags], whatever flags the
    stream has when it is called. *)
Definition guarded_eval (flags : N) (func : EvalFunc (obj:=obj) (T:=T)) : EvalFunc :=
  fun mem arg out => func mem arg (set_flags flags out).

(** A substitution, and a template, with the evaluators so guarded. *)
Definition guarded_subst (flags : N) (subst : Substitution (obj:=obj) (T:=T))
  : Substitution :=
  {| s_begin := s_begin subst; s_end := s_end subst;
     var_def := (λ d : text * EvalFunc, (d.1, guarded_eval flags d.2)) <$> var_def subst |}.

Definition guarded_template (flags : N) templ : Template :=
  {| m_text := m_text templ;
     m_substitutions := map (guarded_subst flags) (m_substitutions templ) |}.

End Vocabulary.

(** * Properties *)

(** ** [std::string_view::find] *)

Lemma sv_find_Some ch sv pos i :
  sv_find ch sv pos = Some i →
  pos ≤ i ∧ i < length sv ∧ sv !! i = Some ch ∧
  ∀ k, pos ≤ k → k < i → sv !! k ≠ Some ch.
Proof.
  revert pos i. induction sv as [|c sv IH]; intros pos i; simpl; [done|].
  destruct pos as [|pos].
  - destruct (decide (c = ch)) as [->|Hne].
    + intros [= <-]. split_and!; simpl; [lia | lia | done | intros; lia].
    + destruct (sv_find ch sv 0) as [i'|] eqn:E; simpl; [|done].
      intros [= <-]. destruct (IH _ _ E) as (_ & Hlt & Hi & Hmin).
      split_and!; [lia | lia | done |].
      intros [|k] _ Hk; simpl; [congruence | apply Hmin; lia].
  - destruct (sv_find ch sv pos) as [i'|] eqn:E; simpl; [|done].
    intros [= <-]. destruct (IH _ _ E) as (Hle & Hlt & Hi & Hmin).
    split_and!; [lia | lia | done |].
    intros [|k] Hk1 Hk2; simpl; [lia | apply Hmin; lia].
Qed.

Lemma sv_find_None ch sv pos :
  sv_find ch sv pos = None → ∀ k, pos ≤ k → sv !! k ≠ Some ch.
Proof.
  revert pos. induction sv as [|c sv IH]; intros pos; simpl; [done|].
  destruct pos as [|pos].
  - destruct (decide (c = ch)) as [->|Hne]; [done|].
    destruct (sv_find ch sv 0) eqn:E; simpl; [done|].
    intros _ [|k] _; simpl; [congruence | apply (IH 0); [done | lia]].
  - destruct (sv_find ch sv pos) eqn:E; simpl; [done|].
    intros _ [|k] Hk; simpl; [lia | apply (IH pos); [done | lia]].
Qed.

(** A view is searched the same way behind any prefix. *)
Lemma sv_find_app_shift ch pre sv pos :
  sv_find ch (pre ++ sv) (length pre + pos) = (λ i, length pre + i) <$> sv_find ch sv pos.
Proof.
  induction pre as [|c pre IH]; simpl.
  - by destruct (sv_find ch sv pos).
  - rewrite IH. by destruct (sv_find ch sv pos).
Qed.

(** A prefix without [ch] is skipped. *)
Lemma sv_find_app_skip ch pre sv :
  ch ∉ pre →
  sv_find ch (pre ++ sv) 0 = (λ i, length pre + i) <$> sv_find ch sv 0.
Proof.
  induction pre as [|c pre IH]; simpl; intros Hnot.
  - by destruct (sv_find ch sv 0).
  - destruct (decide (c = ch)) as [->|Hne]; [set_solver|].
    rewrite IH; [|set_solver]. by destruct (sv_find ch sv 0).
Qed.

Lemma sv_at_lookup sv i ch : sv !! i = Some ch → sv_at sv i = ch.
Proof. intros H. unfold sv_at. by apply nth_lookup_Some with (d := zero) in H. Qed.

Lemma sv_at_app_shift pre sv i : sv_at (pre ++ sv) (length pre + i) = sv_at sv i.
Proof. unfold sv_at. rewrite app_nth2; [|lia]. f_equal. lia. Qed.

Lemma sv_substr_app_shift pre sv pos n :
  sv_substr (pre ++ sv) (length pre + pos) n = sv_substr sv pos n.
Proof. unfold sv_substr. by rewrite drop_app_add. Qed.

Lemma sv_tail_app_shift pre sv pos :
  sv_tail (pre ++ sv) (length pre + pos) = sv_tail sv pos.
Proof. unfold sv_tail. by rewrite drop_app_add. Qed.

Lemma sv_find_app_l ch (sv1 sv2 : text) pos i :
  sv_find ch sv1 pos = Some i → sv_find ch (sv1 ++ sv2) pos = Some i.
Proof.
  revert pos i. induction sv1 as [|c sv1 IH]; intros pos i; simpl; [done|].
  destruct pos as [|pos].
  - destruct (decide (c = ch)); [done|].
    destruct (sv_find ch sv1 0) as [i'|] eqn:E; simpl; [|done].
    by rewrite (IH _ _ E).
  - destruct (sv_find ch sv1 pos) as [i'|] eqn:E; simpl; [|done].
    by rewrite (IH _ _ E).
Qed.

Lemma sv_find_app_r ch (sv1 sv2 : text) pos :
  sv_find ch sv1 pos = None → pos ≤ length sv1 →
  sv_find ch (sv1 ++ sv2) pos = (λ i, length sv1 + i) <$> sv_find ch sv2 0.
Proof.
  revert pos. induction sv1 as [|c sv1 IH]; intros pos; simpl.
  - intros _ Hpos. replace pos with 0 by lia. by destruct (sv_find ch sv2 0).
  - destruct pos as [|pos].
    + destruct (decide (c = ch)); [done|].
      destruct (sv_find ch sv1 0) eqn:E; simpl; [done|]. intros _ _.
      rewrite (IH 0) by (done || lia). by destruct (sv_find ch sv2 0).
    + destruct (sv_find ch sv1 pos) eqn:E; simpl; [done|]. intros _ Hpos.
      rewrite (IH pos) by (done || lia). by destruct (sv_find ch sv2 0).
Qed.

Lemma sv_at_app_l (sv1 sv2 : text) i : i < length sv1 → sv_at (sv1 ++ sv2) i = sv_at sv1 i.
Proof. intros Hi. unfold sv_at. by rewrite app_nth1. Qed.

Lemma sv_substr_app_l (sv1 sv2 : text) pos n :
  pos + n ≤ length sv1 → sv_substr (sv1 ++ sv2) pos n = sv_substr sv1 pos n.
Proof.
  intros Hle. unfold sv_substr. rewrite drop_app_le by lia.
  rewrite take_app_le; [done|]. rewrite length_drop. lia.
Qed.

(** ** Writing to the stream *)

Lemma os_write_flags s os : os_flags (outcome_stream (os_write s os)) = os_flags os.
Proof. unfold os_write. by repeat case_match. Qed.

Lemma os_write_precision s os :
  os_precision (outcome_stream (os_write s os)) = os_precision os.
Proof. unfold os_write. by repeat case_match. Qed.

Lemma os_write_locale s os : os_locale (outcome_stream (os_write s os)) = os_locale os.
Proof. unfold os_write. by repeat case_match. Qed.

Lemma os_write_nil os : os_write [] os = Normal os.
Proof.
  destruct os as [fl pr loc buf [room|]]; unfold os_write; simpl;
    rewrite ?app_nil_r, ?Nat.sub_0_r; done.
Qed.

(** Writing a text in two pieces is writing it at once: a sink that is full
    has taken the same bytes either way. *)
Lemma os_write_app s1 s2 os :
  os_write (s1 ++ s2) os = os_write s1 os >>> os_write s2.
Proof.
  destruct os as [fl pr loc buf [room|]]; unfold os_write; simpl.
  - rewrite length_app.
    destruct (Nat.leb_spec (length s1) room) as [H1|H1]; simpl.
    + destruct (Nat.leb_spec (length s2) (room - length s1)) as [H2|H2].
      * rewrite (proj2 (Nat.leb_le _ _)) by lia.
        rewrite app_assoc. do 3 f_equal. lia.
      * rewrite (proj2 (Nat.leb_gt _ _)) by lia.
        rewrite take_app, <- app_assoc. rewrite (take_ge s1) by lia. done.
    + rewrite (proj2 (Nat.leb_gt _ _)) by lia.
      rewrite take_app. replace (room - length s1) with 0 by lia.
      rewrite take_0, app_nil_r. done.
  - by rewrite app_assoc.
Qed.

Lemma set_flags_same os : set_flags (os_flags os) os = os.
Proof. by destruct os. Qed.

Lemma and_then_assoc r k1 k2 : r >>> k1 >>> k2 = r >>> (λ os, k1 os >>> k2).
Proof. by destruct r. Qed.

Lemma and_then_ext r k1 k2 : (∀ os, k1 os = k2 os) → r >>> k1 = r >>> k2.
Proof. intros H. destruct r; simpl; [apply H | done]. Qed.

Lemma and_then_Normal r : r >>> Normal = r.
Proof. by destruct r. Qed.

(** What follows a write may assume the flags the write started with. *)
Lemma and_then_write_ext s out k1 k2 :
  (∀ os, os_flags os = os_flags out → k1 os = k2 os) →
  os_write s out >>> k1 = os_write s out >>> k2.
Proof.
  intros H. pose proof (os_write_flags s out) as Hfl.
  destruct (os_write s out); simpl in *; [by apply H | done].
Qed.

Lemma catch_restore_write flags s out k :
  os_flags out = flags →
  catch_restore flags (os_write s out >>> k) =
  os_write s out >>> (λ os, catch_restore flags (k os)).
Proof.
  intros <-. pose proof (os_write_flags s out) as Hfl.
  destruct (os_write s out) as [os|os]; simpl in *; [done|].
  by rewrite <- Hfl, set_flags_same.
Qed.

(** ** The parse loop *)

Section ParseFacts.
Context {obj T : Type}.
Implicit Types (self : Substituter (obj:=obj) (T:=T)) (st : pstate (obj:=obj) (T:=T)).
Implicit Types (substs : list (Substitution (obj:=obj) (T:=T))).

Lemma spans_chain_bounds lo hi substs : spans_chain lo hi substs → lo ≤ hi.
Proof.
  revert lo. induction substs as [|s rest IH]; simpl; intros lo; [done|].
  intros (? & ? & Hrest). apply IH in Hrest. lia.
Qed.

Lemma spans_chain_snoc lo hi substs b e vd :
  spans_chain lo hi substs → hi ≤ b → b < e →
  spans_chain lo e (substs ++ [{| s_begin := b; s_end := e; var_def := vd |}]).
Proof.
  revert lo. induction substs as [|s rest IH]; simpl; intros lo.
  - intros. lia.
  - intros (? & ? & Hrest) ? ?. split_and!; [done..|]. by apply IH.
Qed.

Lemma spans_chain_weaken lo hi hi' substs :
  spans_chain lo hi substs → hi ≤ hi' → spans_chain lo hi' substs.
Proof.
  revert lo. induction substs as [|s rest IH]; simpl; intros lo.
  - lia.
  - intros (? & ? & Hrest) ?. split_and!; [done..|]. by apply IH.
Qed.

(** Every span of a chain lies between its bounds. *)
Lemma spans_chain_elem lo hi substs s :
  spans_chain lo hi substs → s ∈ substs →
  lo ≤ s_begin s ∧ s_begin s < s_end s ∧ s_end s ≤ hi.
Proof.
  revert lo. induction substs as [|s' rest IH]; simpl; intros lo Hc Hin.
  - by apply elem_of_nil in Hin.
  - destruct Hc as (? & ? & Hrest). apply elem_of_cons in Hin as [->|Hin].
    + split_and!; [done..|]. by apply spans_chain_bounds in Hrest.
    + destruct (IH _ Hrest Hin) as (? & ? & ?). lia.
Qed.

(** An earlier span ends before a later one begins. *)
Lemma spans_chain_lookup lo hi substs i j si sj :
  spans_chain lo hi substs → i < j →
  substs !! i = Some si → substs !! j = Some sj →
  s_end si ≤ s_begin sj.
Proof.
  revert lo i j. induction substs as [|s rest IH]; simpl; intros lo i j Hc Hij Hi Hj.
  - done.
  - destruct Hc as (? & ? & Hrest). destruct j as [|j]; [lia|]. simpl in Hj.
    destruct i as [|i]; simpl in Hi.
    + injection Hi as <-. apply list_elem_of_lookup_2 in Hj.
      by destruct (spans_chain_elem _ _ _ _ Hrest Hj) as (? & _).
    + apply (IH (s_end s) i j); [done | lia | done..].
Qed.

Lemma parse_inv_init text_ : parse_inv text_ (parse_init (obj:=obj) (T:=T)).
Proof. split; simpl; lia. Qed.

(** The end of the loop body always continues, with the cursor at [curr]. *)
Lemma lookup_and_record_inv self text_ st i ch var_name curr :
  parse_inv text_ st → p_curr st ≤ i → i < curr → curr ≤ length text_ →
  ∃ st', lookup_and_record self text_ st i ch var_name curr = Continue st' ∧
         p_curr st' = curr ∧ parse_inv text_ st'.
Proof.
  intros [Hcur Hch] Hle Hlt Hend. unfold lookup_and_record.
  destruct (decide (ch = "@"%char)) as [_|_];
    [|destruct (m_variables self !! var_name) as [func|]];
    eexists; (split; [done|]); (split; [done|]); (split; simpl; [done|]).
  - apply spans_chain_snoc with (hi := p_curr st); [done | lia..].
  - apply spans_chain_snoc with (hi := p_curr st); [done | lia..].
  - eapply spans_chain_weaken; [done | lia].
Qed.

(** One iteration: it either breaks, or continues with the cursor moved
    forward past the marker it found; the invariant is kept either way. *)
Lemma parse_body_spec self text_ st :
  parse_inv text_ st →
  match parse_body self text_ st with
  | Break st' => parse_inv text_ st'
  | Continue st' =>
      p_curr st + 2 ≤ p_curr st' ∧ parse_inv text_ st'
  end.
Proof.
  intros Hinv. pose proof Hinv as [Hcur Hch]. unfold parse_body.
  destruct (sv_find "@" text_ (p_curr st)) as [i|] eqn:Ei; [|done].
  apply sv_find_Some in Ei as (Hle & Hlt & _ & _).
  destruct (i + 1 =? length text_) eqn:Eend; [done|].
  apply Nat.eqb_neq in Eend.
  destruct (decide (sv_at text_ (i + 1) = "{"%char)) as [Hb|Hb].
  - destruct (sv_find "}" text_ (i + 2)) as [j|] eqn:Ej.
    + apply sv_find_Some in Ej as (Hle' & Hlt' & _ & _).
      destruct (lookup_and_record_inv self text_ st i (sv_at text_ (i + 1))
                  (sv_substr text_ (i + 2) (j - (i + 2))) (j + 1))
        as (st' & -> & Hc & Hinv'); [done | lia..|].
      split; [lia | done].
    + split; [simpl; lia|]. split; simpl; [lia|].
      eapply spans_chain_weaken; [done | lia].
  - destruct (lookup_and_record_inv self text_ st i (sv_at text_ (i + 1))
                (sv_substr text_ (i + 1) 1) (i + 2))
      as (st' & -> & Hc & Hinv'); [done | lia..|].
    split; [lia | done].
Qed.

Lemma parse_loop_inv self text_ fuel st st' :
  parse_inv text_ st →
  parse_loop self text_ fuel st = Some st' →
  parse_inv text_ st'.
Proof.
  revert st. induction fuel as [|fuel IH]; simpl; intros st Hinv; [done|].
  pose proof (parse_body_spec self text_ st Hinv) as Hb.
  destruct (parse_body self text_ st) as [st1|st1].
  - by intros [= <-].
  - apply IH. by destruct Hb.
Qed.

(** The loop ends: it needs no more iterations than there are characters
    left, plus one. *)
Lemma parse_loop_terminates self text_ fuel st :
  parse_inv text_ st →
  length text_ - p_curr st < fuel →
  is_Some (parse_loop self text_ fuel st).
Proof.
  revert st. induction fuel as [|fuel IH]; simpl; intros st Hinv Hfuel; [lia|].
  pose proof (parse_body_spec self text_ st Hinv) as Hb.
  destruct (parse_body self text_ st) as [st1|st1]; [done|].
  destruct Hb as [Hfwd Hinv']. apply IH; [done|]. destruct Hinv'. lia.
Qed.

(** More fuel does not change the result. *)
Lemma parse_loop_fuel_mono self text_ fuel fuel' st st' :
  parse_loop self text_ fuel st = Some st' → fuel ≤ fuel' →
  parse_loop self text_ fuel' st = Some st'.
Proof.
  revert fuel' st. induction fuel as [|fuel IH]; simpl; intros fuel' st; [done|].
  intros Hrun Hle. destruct fuel' as [|fuel']; [lia|]. simpl.
  destruct (parse_body self text_ st); [done|]. apply IH; [done | lia].
Qed.

(** [parse] always returns. *)
Lemma parse_total self text_ templ :
  ∃ st, parse_loop self text_ (S (length text_)) parse_init = Some st ∧
        parse_inv text_ st ∧
        parse self text_ templ = Some (parse_return self text_ templ st).
Proof.
  destruct (parse_loop_terminates self text_ (S (length text_)) parse_init) as [st Hst];
    [apply parse_inv_init | simpl; lia|].
  exists st. split; [done|]. split.
  - eapply parse_loop_inv; [apply parse_inv_init | done].
  - unfold parse. by rewrite Hst.
Qed.

End ParseFacts.

(** ** Diagnostics *)

Section LogFacts.
Context {obj T : Type}.
Implicit Types (self : Substituter (obj:=obj) (T:=T)) (st : pstate (obj:=obj) (T:=T)).

Lemma log_inv_init self text_ : log_inv self text_ parse_init.
Proof. split; simpl; [split; done | constructor]. Qed.

Lemma log_inv_report self text_ st msg curr :
  log_inv self text_ st → justified self text_ msg →
  log_inv self text_ (report self st msg curr).
Proof.
  intros [_ Hall] Hmsg. split; simpl.
  - split; [|done]. intros _. by destruct (p_log st).
  - apply Forall_app. split; [done|]. by repeat constructor.
Qed.

Lemma log_inv_record self text_ st i curr vd :
  log_inv self text_ st → log_inv self text_ (record st i curr vd).
Proof. by intros [? ?]. Qed.

(** The characters of a braced reference. *)
Lemma braced_reference_substr (text_ : text) i j :
  text_ !! i = Some "@"%char → text_ !! (i + 1) = Some "{"%char →
  sv_find "}" text_ (i + 2) = Some j →
  reference (sv_substr text_ i (j + 1 - i)) (sv_substr text_ (i + 2) (j - (i + 2))).
Proof.
  intros Hi Hi1 Hj. apply sv_find_Some in Hj as (Hle & Hlt & Hj & Hmin).
  assert (sv_substr text_ i (j + 1 - i) =
          txt "@{" ++ sv_substr text_ (i + 2) (j - (i + 2)) ++ txt "}") as ->.
  { unfold sv_substr. rewrite (drop_S _ _ _ Hi).
    replace (S i) with (i + 1) by lia. rewrite (drop_S _ _ _ Hi1).
    replace (S (i + 1)) with (i + 2) by lia.
    replace (j + 1 - i) with (S (S (S (j - (i + 2))))) by lia. simpl. do 2 f_equal.
    apply take_S_r. rewrite lookup_drop. by replace (i + 2 + (j - (i + 2))) with j by lia. }
  constructor. intros Hin. apply list_elem_of_lookup in Hin as [k Hk].
  unfold sv_substr in Hk. apply lookup_take_Some in Hk as [Hk Hlt'].
  rewrite lookup_drop in Hk. by apply (Hmin (i + 2 + k)); [lia | lia |].
Qed.

Lemma short_reference_substr (text_ : text) i :
  text_ !! i = Some "@"%char → i + 1 < length text_ →
  sv_at text_ (i + 1) ≠ "{"%char → sv_at text_ (i + 1) ≠ "@"%char →
  reference (sv_substr text_ i (i + 2 - i)) (sv_substr text_ (i + 1) 1).
Proof.
  intros Hi Hlt Hc1 Hc2.
  destruct (lookup_lt_is_Some_2 text_ (i + 1) Hlt) as [c Hc].
  rewrite (sv_at_lookup _ _ _ Hc) in Hc1, Hc2.
  unfold sv_substr. rewrite (drop_S _ _ _ Hi).
  replace (S i) with (i + 1) by lia. rewrite (drop_S _ _ _ Hc).
  replace (i + 2 - i) with 2 by lia. simpl. rewrite take_0. by constructor.
Qed.

Lemma lookup_and_record_log self text_ st i ch var_name curr :
  log_inv self text_ st →
  (ch ≠ "@"%char → reference (sv_substr text_ i (curr - i)) var_name) →
  log_inv self text_
    (match lookup_and_record self text_ st i ch var_name curr with
     | Break st' | Continue st' => st'
     end).
Proof.
  intros Hinv Href. unfold lookup_and_record.
  destruct (decide (ch = "@"%char)) as [|Hch]; [by apply log_inv_record|].
  destruct (m_variables self !! var_name) eqn:Hvar; [by apply log_inv_record|].
  apply log_inv_report; [done|]. simpl. split; [done|]. split; [by apply Href|].
  exists i. unfold sv_substr. rewrite length_take.
  destruct (Nat.min_spec (curr - i) (length (drop i text_))) as [[_ ->]|[Hge ->]];
    [done|].
  by rewrite firstn_all, take_ge.
Qed.

Lemma parse_body_log self text_ st :
  log_inv self text_ st →
  log_inv self text_
    (match parse_body self text_ st with Break st' | Continue st' => st' end).
Proof.
  intros Hinv. unfold parse_body.
  destruct (sv_find "@" text_ (p_curr st)) as [i|] eqn:Ei; [|done].
  pose proof Ei as (Hle & Hlt & Hi & _)%sv_find_Some.
  destruct (Nat.eqb_spec (i + 1) (length text_)) as [Hend|Hend].
  { apply log_inv_report; [done|]. simpl. rewrite last_lookup.
    by replace (pred (length text_)) with i by lia. }
  destruct (decide (sv_at text_ (i + 1) = "{"%char)) as [Hb|Hb].
  - assert (text_ !! (i + 1) = Some "{"%char) as Hi1.
    { destruct (lookup_lt_is_Some_2 text_ (i + 1)) as [c Hc]; [lia|].
      by rewrite <- Hb, (sv_at_lookup _ _ _ Hc). }
    destruct (sv_find "}" text_ (i + 2)) as [j|] eqn:Ej.
    + apply lookup_and_record_log; [done|]. intros _.
      by apply braced_reference_substr.
    + apply log_inv_report; [done|]. exists i. split_and!; [done..|].
      by apply sv_find_None.
  - apply lookup_and_record_log; [done|]. intros Hat.
    apply short_reference_substr; [done | lia | done..].
Qed.

Lemma parse_loop_log self text_ fuel st st' :
  log_inv self text_ st →
  parse_loop self text_ fuel st = Some st' →
  log_inv self text_ st'.
Proof.
  revert st. induction fuel as [|fuel IH]; simpl; intros st Hinv; [done|].
  pose proof (parse_body_log self text_ st Hinv) as Hb.
  destruct (parse_body self text_ st) as [st1|st1].
  - by intros [= <-].
  - by apply IH.
Qed.

End LogFacts.

(** ** A template behind a prefix *)

Section Shift.
Context {obj T : Type}.
Implicit Types (self : Substituter (obj:=obj) (T:=T)) (st : pstate (obj:=obj) (T:=T)).
Implicit Types (subst : Substitution (obj:=obj) (T:=T)).

Lemma resume_init st1 : resume st1 parse_init = st1.
Proof.
  destruct st1; unfold resume; simpl.
  by rewrite Nat.add_0_r, !app_nil_r, orb_false_r.
Qed.

Lemma resume_report self st1 st msg curr :
  resume st1 (report self st msg curr) = report self (resume st1 st) msg (p_curr st1 + curr).
Proof.
  unfold resume, report; simpl. by rewrite orb_true_r, app_assoc.
Qed.

Lemma resume_record st1 st i curr vd :
  resume st1 (record st i curr vd) =
  record (resume st1 st) (p_curr st1 + i) (p_curr st1 + curr) vd.
Proof.
  unfold resume, record; simpl. by rewrite map_app, app_assoc.
Qed.

Lemma lookup_and_record_resume self head rest st1 st i ch var_name curr :
  p_curr st1 = length head → i ≤ curr →
  lookup_and_record self (head ++ rest) (resume st1 st) (length head + i) ch var_name
    (length head + curr) =
  resume_flow st1 (lookup_and_record self rest st i ch var_name curr).
Proof.
  intros Hk Hle. unfold lookup_and_record.
  destruct (decide (ch = "@"%char)); simpl.
  - by rewrite resume_record, Hk.
  - destruct (m_variables self !! var_name); simpl.
    + by rewrite resume_record, Hk.
    + rewrite (resume_report self), Hk. do 3 f_equal.
      rewrite sv_substr_app_shift. f_equal. lia.
Qed.

(** One iteration over [head ++ rest], started at or after the end of
    [head], is the iteration over [rest]. *)
Lemma parse_body_resume self head rest st1 st :
  p_curr st1 = length head →
  parse_body self (head ++ rest) (resume st1 st) =
  resume_flow st1 (parse_body self rest st).
Proof.
  intros Hk. unfold parse_body.
  replace (p_curr (resume st1 st)) with (length head + p_curr st)
    by (simpl; lia).
  rewrite sv_find_app_shift.
  destruct (sv_find "@" rest (p_curr st)) as [i|] eqn:Ei; simpl; [|done].
  apply sv_find_Some in Ei as (Hle & Hlt & _ & _).
  rewrite length_app.
  replace (length head + i + 1 =? length head + length rest) with (i + 1 =? length rest)
    by (destruct (Nat.eqb_spec (i + 1) (length rest));
        [symmetry; apply Nat.eqb_eq; lia | symmetry; apply Nat.eqb_neq; lia]).
  destruct (i + 1 =? length rest); simpl.
  { rewrite (resume_report self), Hk. done. }
  replace (length head + i + 1) with (length head + (i + 1)) by lia.
  replace (length head + i + 2) with (length head + (i + 2)) by lia.
  rewrite sv_at_app_shift.
  destruct (decide (sv_at rest (i + 1) = "{"%char)).
  - rewrite sv_find_app_shift.
    destruct (sv_find "}" rest (i + 2)) as [j|] eqn:Ej; simpl.
    + apply sv_find_Some in Ej as (Hle' & Hlt' & _ & _).
      rewrite sv_substr_app_shift.
      replace (length head + j + 1) with (length head + (j + 1)) by lia.
      replace (length head + j - (length head + (i + 2))) with (j - (i + 2)) by lia.
      apply lookup_and_record_resume; [done | lia].
    + rewrite (resume_report self), Hk. done.
  - rewrite sv_substr_app_shift. apply lookup_and_record_resume; [done | lia].
Qed.

Lemma parse_loop_resume self head rest st1 st fuel :
  p_curr st1 = length head →
  parse_loop self (head ++ rest) fuel (resume st1 st) =
  resume st1 <$> parse_loop self rest fuel st.
Proof.
  intros Hk. revert st. induction fuel as [|fuel IH]; intros st; simpl; [done|].
  rewrite parse_body_resume by done.
  destruct (parse_body self rest st); simpl; [done | apply IH].
Qed.

End Shift.

(** ** A template behind a text whose references are all terminated *)

Section Concat.
Context {obj T : Type}.
Implicit Types (self : Substituter (obj:=obj) (T:=T)) (st : pstate (obj:=obj) (T:=T)).
Implicit Types (substs : list (Substitution (obj:=obj) (T:=T))).

(** The cursor matters only through the marker it leads to. *)
Lemma parse_loop_cursor self text_ fuel st curr :
  sv_find "@" text_ (p_curr st) = sv_find "@" text_ curr →
  found <$> parse_loop self text_ fuel st =
  found <$> parse_loop self text_ fuel (set_curr curr st).
Proof.
  intros Hfind. destruct fuel as [|fuel]; simpl; [done|].
  unfold parse_body. simpl p_curr. rewrite <- Hfind.
  destruct (sv_find "@" text_ (p_curr st)) as [i|]; [|done].
  destruct (i + 1 =? length text_); [done|].
  assert (∀ ch name c, lookup_and_record self text_ (set_curr curr st) i ch name c =
                       lookup_and_record self text_ st i ch name c) as Hlr.
  { intros ch name c. unfold lookup_and_record.
    destruct (decide (ch = "@"%char)); [done|].
    by destruct (m_variables self !! name). }
  rewrite !Hlr.
  destruct (decide (sv_at text_ (i + 1) = "{"%char)); [|done].
  by destruct (sv_find "}" text_ (i + 2)).
Qed.

(** The log grows at its end. *)
Lemma parse_body_log_grows self text_ st :
  ∃ l, p_log (match parse_body self text_ st with Break st' | Continue st' => st' end)
       = p_log st ++ l.
Proof.
  unfold parse_body, lookup_and_record.
  destruct (sv_find "@" text_ (p_curr st)) as [i|]; [|exists []; by rewrite app_nil_r].
  destruct (i + 1 =? length text_); [by eexists|].
  destruct (decide (sv_at text_ (i + 1) = "{"%char));
    [destruct (sv_find "}" text_ (i + 2)); [|by eexists]|];
    (destruct (decide (sv_at text_ (i + 1) = "@"%char));
     [exists []; simpl; by rewrite app_nil_r|];
     destruct (m_variables self !! _);
     [exists []; simpl; by rewrite app_nil_r | by eexists]).
Qed.

Lemma parse_loop_log_grows self text_ fuel st st' :
  parse_loop self text_ fuel st = Some st' → ∃ l, p_log st' = p_log st ++ l.
Proof.
  revert st. induction fuel as [|fuel IH]; simpl; intros st; [done|].
  destruct (parse_body_log_grows self text_ st) as [l1 Hl1].
  destruct (parse_body self text_ st) as [st1|st1].
  - intros [= <-]. by exists l1.
  - intros Hrun. destruct (IH _ Hrun) as [l2 Hl2]. exists (l1 ++ l2).
    by rewrite Hl2, Hl1, app_assoc.
Qed.

(** An iteration over [head] that continues, and does not report an
    unterminated brace, is the same iteration over [head ++ rest]. *)
Lemma parse_body_prefix self head rest st st1 :
  parse_body self head st = Continue st1 →
  forallb is_undefined (p_log st1) = true →
  parse_body self (head ++ rest) st = Continue st1.
Proof.
  unfold parse_body. intros Hbody Hlog.
  destruct (sv_find "@" head (p_curr st)) as [i|] eqn:Ei; [|done].
  rewrite (sv_find_app_l _ _ _ _ _ Ei).
  apply sv_find_Some in Ei as (Hle & Hlt & _ & _).
  destruct (Nat.eqb_spec (i + 1) (length head)) as [|Hend]; [done|].
  rewrite length_app. rewrite (proj2 (Nat.eqb_neq _ _)) by lia.
  rewrite sv_at_app_l by lia.
  assert (∀ ch name c, c ≤ length head →
            lookup_and_record self (head ++ rest) st i ch name c =
            lookup_and_record self head st i ch name c) as Hlr.
  { intros ch name c Hc. unfold lookup_and_record.
    destruct (decide (ch = "@"%char)); [done|].
    destruct (m_variables self !! name); [done|].
    by rewrite sv_substr_app_l by lia. }
  destruct (decide (sv_at head (i + 1) = "{"%char)).
  - destruct (sv_find "}" head (i + 2)) as [j|] eqn:Ej.
    + rewrite (sv_find_app_l _ _ _ _ _ Ej).
      apply sv_find_Some in Ej as (Hle' & Hlt' & _ & _).
      rewrite sv_substr_app_l by lia. rewrite Hlr by lia. done.
    + injection Hbody as <-. simpl in Hlog.
      rewrite forallb_app in Hlog. simpl in Hlog.
      by rewrite andb_false_r in Hlog.
  - rewrite sv_substr_app_l by lia. rewrite Hlr by lia. done.
Qed.

(** The run over [head ++ rest] follows the run over [head] to its end, and
    goes on from there. *)
Lemma parse_loop_prefix self head rest fuel st st_h fuel2 st_f :
  parse_inv head st →
  parse_loop self head fuel st = Some st_h →
  forallb is_undefined (p_log st_h) = true →
  parse_loop self (head ++ rest) fuel2 (set_curr (length head) st_h) = Some st_f →
  ∃ st_f', parse_loop self (head ++ rest) (fuel + fuel2) st = Some st_f' ∧
           found st_f' = found st_f.
Proof.
  revert st. induction fuel as [|fuel IH]; intros st Hinv Hrun Hlog Hrest; [done|].
  simpl in Hrun. change (S fuel + fuel2) with (S (fuel + fuel2)).
  pose proof (parse_body_spec self head st Hinv) as Hspec.
  destruct (parse_body self head st) as [st'|st1] eqn:Hbody.
  - injection Hrun as ->.
    assert (st_h = st ∧ sv_find "@" head (p_curr st) = None) as [-> Hnone].
    { unfold parse_body in Hbody.
      destruct (sv_find "@" head (p_curr st)) as [i|]; [|by injection Hbody as <-].
      destruct (i + 1 =? length head).
      - injection Hbody as <-. simpl in Hlog. rewrite forallb_app in Hlog.
        simpl in Hlog. by rewrite andb_false_r in Hlog.
      - unfold lookup_and_record in Hbody. by repeat case_match. }
    pose proof (parse_loop_cursor self (head ++ rest) (S (fuel + fuel2)) st (length head))
      as Hcur.
    rewrite (parse_loop_fuel_mono self (head ++ rest) fuel2 (S (fuel + fuel2)) _ _ Hrest)
      in Hcur by lia.
    destruct Hinv as [Hle _].
    rewrite sv_find_app_r in Hcur by done.
    pose proof (sv_find_app_shift "@" head rest 0) as Hshift.
    rewrite Nat.add_0_r in Hshift. rewrite Hshift in Hcur. specialize (Hcur eq_refl).
    destruct (parse_loop self (head ++ rest) (S (fuel + fuel2)) st) as [st_f'|];
      [|done].
    exists st_f'. split; [done|]. simpl in Hcur. congruence.
  - destruct Hspec as [_ Hinv1].
    destruct (parse_loop_log_grows self head fuel st1 st_h Hrun) as [l Hl].
    assert (forallb is_undefined (p_log st1) = true) as Hlog1.
    { rewrite Hl, forallb_app in Hlog. by apply andb_true_iff in Hlog as [? _]. }
    simpl. rewrite (parse_body_prefix self head rest st st1 Hbody Hlog1).
    by apply IH.
Qed.

Lemma parse_loop_canonical self text_ fuel st :
  parse_loop self text_ fuel parse_init = Some st →
  parse_loop self text_ (S (length text_)) parse_init = Some st.
Proof.
  intros Hrun.
  destruct (parse_total self text_ empty_Template) as (st' & Hst' & _ & _).
  pose proof (parse_loop_fuel_mono self text_ _ (fuel + S (length text_)) _ _ Hrun) as H1.
  pose proof (parse_loop_fuel_mono self text_ _ (fuel + S (length text_)) _ _ Hst') as H2.
  rewrite H1 in H2 by lia. specialize (H2 ltac:(lia)). by injection H2 as ->.
Qed.

(** Concatenation: behind a text whose references are all terminated, a text
    is parsed as it is on its own. *)
Lemma parse_loop_concat self head rest st_h :
  parse_loop self head (S (length head)) parse_init = Some st_h →
  forallb is_undefined (p_log st_h) = true →
  ∃ st_r st,
    parse_loop self rest (S (length rest)) parse_init = Some st_r ∧
    parse_loop self (head ++ rest) (S (length (head ++ rest))) parse_init = Some st ∧
    spans_chain 0 (length head) (p_substitutions st_h) ∧
    p_substitutions st =
      p_substitutions st_h ++ map (shift_subst (length head)) (p_substitutions st_r) ∧
    p_error st = p_error st_h || p_error st_r ∧
    p_log st = p_log st_h ++ p_log st_r.
Proof.
  intros Hhead Hlog.
  destruct (parse_total self rest empty_Template) as (st_r & Hrest & _ & _).
  pose proof (parse_loop_inv self head _ _ _ (parse_inv_init head) Hhead) as [Hcur Hchain].
  pose proof (parse_loop_resume self head rest (set_curr (length head) st_h) parse_init
                (S (length rest)) eq_refl) as Hres.
  rewrite Hrest in Hres. rewrite resume_init in Hres.
  change (parse_loop self (head ++ rest) (S (length rest)) (set_curr (length head) st_h)
          = Some (resume (set_curr (length head) st_h) st_r)) in Hres.
  destruct (parse_loop_prefix self head rest _ _ _ _ _ (parse_inv_init head) Hhead Hlog Hres)
    as (st & Hst & Hfound).
  exists st_r, st. split; [done|]. split; [by eapply parse_loop_canonical|].
  split; [by eapply spans_chain_weaken|].
  unfold found in Hfound. simpl in Hfound. by injection Hfound as -> -> ->.
Qed.

End Concat.

(** ** Expansion behind a prefix *)

Section ExpandShift.
Context {obj T : Type}.
Variable mem : store (T:=T).
Variable arg : list obj.
Implicit Types (subst : Substitution (obj:=obj) (T:=T)).
Implicit Types (substs : list (Substitution (obj:=obj) (T:=T))).

Lemma expand_body_shift head rest flags c subst out :
  expand_body mem arg (head ++ rest) flags (length head + c)
    (shift_subst (length head) subst) out =
  expand_body mem arg rest flags c subst out.
Proof.
  unfold expand_body; simpl. rewrite sv_substr_app_shift.
  by replace (length head + s_begin subst - (length head + c))
    with (s_begin subst - c) by lia.
Qed.

Lemma expand_loop_shift head rest flags c substs out :
  expand_loop mem arg (head ++ rest) flags (length head + c)
    (map (shift_subst (length head)) substs) out =
  expand_loop mem arg rest flags c substs out.
Proof.
  revert c out. induction substs as [|subst substs IH]; intros c out; simpl.
  - by rewrite sv_tail_app_shift.
  - rewrite expand_body_shift. apply and_then_ext. intros os. apply IH.
Qed.

(** With no substitution inside [head], [head] is written as it stands. *)
Lemma expand_loop_head head rest flags substs out :
  expand_loop mem arg (head ++ rest) flags 0
    (map (shift_subst (length head)) substs) out =
  os_write head out >>> expand_loop mem arg rest flags 0 substs.
Proof.
  destruct substs as [|subst substs]; simpl.
  - unfold sv_tail; simpl. apply os_write_app.
  - unfold expand_body at 1; simpl. unfold sv_substr; simpl.
    rewrite Nat.sub_0_r, drop_0, take_app_add', os_write_app by done.
    rewrite !and_then_assoc. apply and_then_ext. intros os1.
    unfold expand_body, sv_substr; simpl. rewrite Nat.sub_0_r, drop_0.
    rewrite !and_then_assoc. apply and_then_ext. intros os2.
    apply and_then_ext. intros os3.
    apply (expand_loop_shift head rest flags (s_end subst)).
Qed.

End ExpandShift.

(** ** Format flags *)

Section FlagFacts.
Context {obj T : Type}.
Implicit Types (subst : Substitution (obj:=obj) (T:=T)).
Implicit Types (substs : list (Substitution (obj:=obj) (T:=T))).
Implicit Types (mem : store (T:=T)) (arg : list obj).

(** An iteration of [expand] that completes hands the stream on with the
    flags it was given. *)
Lemma expand_body_flags mem arg text_ flags curr subst out out' :
  os_flags out = flags →
  expand_body mem arg text_ flags curr subst out = Normal out' →
  os_flags out' = flags.
Proof.
  intros Hfl. unfold expand_body.
  pose proof (os_write_flags (sv_substr text_ curr (s_begin subst - curr)) out) as H1.
  destruct (os_write _ out) as [out1|out1]; simpl in *; [|done].
  destruct (var_def subst) as [[name func]|].
  - destruct (func mem arg out1) as [out2|out2]; simpl; [|done]. by intros [= <-].
  - pose proof (os_write_flags (txt "@") out1) as H2.
    destruct (os_write _ out1) as [out2|out2]; simpl in *; [|done].
    intros [= <-]. congruence.
Qed.

Lemma expand_loop_flags mem arg text_ flags curr substs out out' :
  os_flags out = flags →
  expand_loop mem arg text_ flags curr substs out = Normal out' →
  os_flags out' = flags.
Proof.
  revert curr out. induction substs as [|subst substs IH]; intros curr out Hfl; simpl.
  - pose proof (os_write_flags (sv_tail text_ curr) out) as H1.
    destruct (os_write _ out); simpl in *; [|done]. intros [= <-]. congruence.
  - destruct (expand_body mem arg text_ flags curr subst out) as [out1|out1] eqn:Hb;
      simpl; [|done].
    apply IH. by apply (expand_body_flags _ _ _ _ _ _ _ _ Hfl Hb).
Qed.

Lemma expand_body_guarded mem arg text_ flags curr subst out :
  os_flags out = flags →
  expand_body mem arg text_ flags curr (guarded_subst flags subst) out =
  expand_body mem arg text_ flags curr subst out.
Proof.
  intros Hfl. unfold expand_body; simpl.
  apply and_then_write_ext. intros out1 Hfl1.
  destruct (var_def subst) as [[name func]|]; simpl; [|done].
  unfold guarded_eval. by rewrite <- Hfl, <- Hfl1, set_flags_same.
Qed.

Lemma expand_loop_guarded mem arg text_ flags curr substs out :
  os_flags out = flags →
  expand_loop mem arg text_ flags curr (map (guarded_subst flags) substs) out =
  expand_loop mem arg text_ flags curr substs out.
Proof.
  revert curr out. induction substs as [|subst substs IH]; intros curr out Hfl; simpl;
    [done|].
  rewrite expand_body_guarded by done.
  destruct (expand_body mem arg text_ flags curr subst out) as [out1|out1] eqn:Hb;
    simpl; [|done].
  apply IH. by apply (expand_body_flags _ _ _ _ _ _ _ _ Hfl Hb).
Qed.

End FlagFacts.

(** ** Expansion behind a text whose references are all terminated *)
Section ExpandConcat.
Context {obj T : Type}.
Variable mem : store (T:=T).
Variable arg : list obj.
Implicit Types (subst : Substitution (obj:=obj) (T:=T)).
Implicit Types (substs : list (Substitution (obj:=obj) (T:=T))).

Lemma shift_subst_add a b subst :
  shift_subst a (shift_subst b subst) = shift_subst (a + b) subst.
Proof. unfold shift_subst; simpl. f_equal; lia. Qed.

(** With the substitutions all behind [head], what is left of [head] from
    the cursor on is written as it stands. *)
Lemma expand_loop_head_from head rest flags c substs out :
  c ≤ length head →
  expand_loop mem arg (head ++ rest) flags c
    (map (shift_subst (length head)) substs) out =
  os_write (drop c head) out >>> expand_loop mem arg rest flags 0 substs.
Proof.
  intros Hc. destruct substs as [|subst substs]; simpl.
  - unfold sv_tail; simpl. rewrite drop_app_le by done. apply os_write_app.
  - unfold expand_body at 1; simpl. unfold sv_substr; simpl.
    rewrite drop_app_le by done.
    replace (length head + s_begin subst - c) with (length (drop c head) + s_begin subst)
      by (rewrite length_drop; lia).
    rewrite take_app_add', os_write_app by done.
    rewrite !and_then_assoc. apply and_then_ext. intros os1.
    unfold expand_body, sv_substr; simpl. rewrite Nat.sub_0_r, drop_0.
    rewrite !and_then_assoc. apply and_then_ext. intros os2.
    apply and_then_ext. intros os3.
    apply (expand_loop_shift mem arg head rest flags (s_end subst)).
Qed.

Lemma expand_body_app_l head rest flags c subst out :
  c ≤ s_begin subst → s_begin subst ≤ length head →
  expand_body mem arg (head ++ rest) flags c subst out =
  expand_body mem arg head flags c subst out.
Proof.
  intros Hc Hb. unfold expand_body. by rewrite sv_substr_app_l by lia.
Qed.

(** The loop over the substitutions of [head] and then those of [rest],
    moved behind [head]. *)
Lemma expand_loop_concat head rest flags c substs_h substs_r out :
  spans_chain c (length head) substs_h →
  expand_loop mem arg (head ++ rest) flags c
    (substs_h ++ map (shift_subst (length head)) substs_r) out =
  expand_loop mem arg head flags c substs_h out >>>
  expand_loop mem arg rest flags 0 substs_r.
Proof.
  revert c out. induction substs_h as [|subst substs_h IH]; intros c out; simpl.
  - intros Hc. unfold sv_tail. by apply expand_loop_head_from.
  - intros (Hc & Hlt & Hchain). pose proof (spans_chain_bounds _ _ _ Hchain).
    rewrite expand_body_app_l by lia.
    rewrite and_then_assoc. apply and_then_ext. intros os. by apply IH.
Qed.

Lemma expand_concat head rest substs_h substs_r out :
  spans_chain 0 (length head) substs_h →
  expand mem arg
    {| m_text := head ++ rest;
       m_substitutions := substs_h ++ map (shift_subst (length head)) substs_r |} out =
  expand mem arg {| m_text := head; m_substitutions := substs_h |} out >>>
  expand mem arg {| m_text := rest; m_substitutions := substs_r |}.
Proof.
  intros Hchain. unfold expand; simpl. rewrite expand_loop_concat by done.
  destruct (expand_loop mem arg head (os_flags out) 0 substs_h out) as [os|os] eqn:Hh;
    simpl; [|done].
  by rewrite (expand_loop_flags mem arg _ _ _ _ _ _ eq_refl Hh).
Qed.

End ExpandConcat.

(** ** References *)

Lemma reference_length ref name : reference ref name → 2 ≤ length ref.
Proof. intros [n _|c _ _]; simpl; lia. Qed.

Section Tokens.
Context {obj T : Type}.
Implicit Types (self : Substituter (obj:=obj) (T:=T)) (st : pstate (obj:=obj) (T:=T)).

(** The iteration that meets the first marker of the text. *)
Lemma parse_body_marker self pre c tail st :
  "@"%char ∉ pre → p_curr st = 0 →
  parse_body self (pre ++ "@"%char :: c :: tail) st =
  if decide (c = "{"%char) then
    match sv_find "}" tail 0 with
    | None => Continue (report self st UnterminatedBrace (length pre + 2))
    | Some j =>
        lookup_and_record self (pre ++ "@"%char :: c :: tail) st (length pre) c
          (take j tail) (length pre + (j + 3))
    end
  else
    lookup_and_record self (pre ++ "@"%char :: c :: tail) st (length pre) c [c]
      (length pre + 2).
Proof.
  intros Hpre Hcur. unfold parse_body. rewrite Hcur, sv_find_app_skip by done.
  simpl sv_find. destruct (decide ("@"%char = "@"%char)); [|done]. simpl.
  rewrite length_app; simpl.
  rewrite (proj2 (Nat.eqb_neq _ _)) by lia.
  replace (length pre + 0 + 1) with (length pre + 1) by lia.
  replace (length pre + 0 + 2) with (length pre + 2) by lia.
  replace (length pre + 0) with (length pre) by lia.
  rewrite sv_at_app_shift. change (sv_at ("@"%char :: c :: tail) 1) with (sv_at (c :: tail) 0).
  change (sv_at (c :: tail) 0) with c.
  destruct (decide (c = "{"%char)) as [Hc|Hc].
  - rewrite sv_find_app_shift. simpl sv_find.
    destruct (sv_find "}" tail 0) as [j|]; simpl; [|done].
    rewrite sv_substr_app_shift. unfold sv_substr at 1; simpl.
    replace (length pre + S (S j) - (length pre + 2)) with j by lia.
    by replace (length pre + S (S j) + 1) with (length pre + (j + 3)) by lia.
  - rewrite sv_substr_app_shift. unfold sv_substr at 1; simpl. by rewrite take_0.
Qed.

(** The iteration that meets a reference as the first marker of the text. *)
Lemma parse_body_reference self pre ref name post st :
  reference ref name → "@"%char ∉ pre → p_curr st = 0 →
  parse_body self (pre ++ ref ++ post) st =
  match m_variables self !! name with
  | None =>
      Continue (report self st (UndefinedVariable name ref) (length (pre ++ ref)))
  | Some func =>
      Continue (record st (length pre) (length (pre ++ ref)) (Some (name, func)))
  end.
Proof.
  intros Href Hpre Hcur. destruct Href as [name Hname|c Hc1 Hc2].
  - change (txt "@{") with ["@"%char; "{"%char]. change (txt "}") with ["}"%char].
    simpl app. rewrite <- app_assoc. simpl app.
    rewrite parse_body_marker by done.
    destruct (decide ("{"%char = "{"%char)); [|done].
    rewrite sv_find_app_skip by done. simpl sv_find.
    destruct (decide ("}"%char = "}"%char)); [|done].
    simpl. unfold lookup_and_record.
    destruct (decide ("{"%char = "@"%char)); [done|].
    rewrite Nat.add_0_r, take_app_length.
    rewrite !length_app; simpl. rewrite length_app; simpl.
    replace (length pre + S (S (length name + 1))) with (length pre + (length name + 3)) by lia.
    destruct (m_variables self !! name); [done|].
    do 3 f_equal. unfold sv_substr. rewrite drop_app_length.
    replace (length pre + (length name + 3) - length pre) with (S (S (length name + 1)))
      by lia.
    simpl. rewrite ?app_nil_r. do 2 f_equal.
    rewrite (cons_middle "}"%char name post), app_assoc.
    apply take_app_length'. rewrite length_app. simpl. lia.
  - simpl app. rewrite parse_body_marker by done.
    destruct (decide (c = "{"%char)); [done|].
    unfold lookup_and_record. destruct (decide (c = "@"%char)); [done|].
    rewrite length_app; simpl.
    destruct (m_variables self !! [c]); [done|].
    do 3 f_equal. unfold sv_substr. rewrite drop_app_length.
    by replace (length pre + 2 - length pre) with 2 by lia.
Qed.

(** The iteration that meets the escape [@@] as the first marker of the text. *)
Lemma parse_body_escape self pre post st :
  "@"%char ∉ pre → p_curr st = 0 →
  parse_body self (pre ++ txt "@@" ++ post) st =
  Continue (record st (length pre) (length (pre ++ txt "@@")) None).
Proof.
  intros Hpre Hcur. change (txt "@@") with ["@"%char; "@"%char]. simpl app.
  rewrite parse_body_marker by done.
  destruct (decide ("@"%char = "{"%char)); [done|].
  unfold lookup_and_record. destruct (decide ("@"%char = "@"%char)); [|done].
  by rewrite length_app.
Qed.

(** When the first iteration consumes exactly [head], the rest of the run is
    the run over what follows [head]. *)
Lemma parse_loop_first self head rest st1 :
  parse_body self (head ++ rest) parse_init = Continue st1 →
  p_curr st1 = length head →
  ∃ st, parse_loop self rest (S (length rest)) parse_init = Some st ∧
        parse_inv rest st ∧
        parse_loop self (head ++ rest) (S (length (head ++ rest))) parse_init =
          Some (resume st1 st).
Proof.
  intros Hbody Hcur.
  destruct (parse_total self rest empty_Template) as (st & Hst & Hinv & _).
  exists st. split; [done|]. split; [done|].
  pose proof (parse_body_spec self (head ++ rest) parse_init
                (parse_inv_init _)) as Hspec.
  rewrite Hbody in Hspec. destruct Hspec as [Hfwd _]. simpl in Hfwd.
  simpl. rewrite Hbody. rewrite <- (resume_init st1) at 1.
  rewrite parse_loop_resume by done.
  rewrite (parse_loop_fuel_mono self rest (S (length rest)) _ _ st Hst); [done|].
  rewrite length_app. lia.
Qed.

End Tokens.

(** ** Expansion of a parsed template, front to back *)

Section ExpandFront.
Context {obj T : Type}.
Variable mem : store (T:=T).
Variable arg : list obj.
Implicit Types (templ : Template (obj:=obj) (T:=T)).
Implicit Types (substs : list (Substitution (obj:=obj) (T:=T))).

Lemma expand_empty text_ out :
  text_ = [] →
  expand mem arg {| m_text := text_; m_substitutions := [] |} out = Normal out.
Proof. intros ->. unfold expand; simpl. unfold sv_tail; simpl. by rewrite os_write_nil. Qed.

(** No substitution in [head]: [head] is written out, the rest is expanded. *)
Lemma expand_front_literal head rest substs out :
  expand mem arg
    {| m_text := head ++ rest;
       m_substitutions := map (shift_subst (length head)) substs |} out =
  os_write head out >>>
  expand mem arg {| m_text := rest; m_substitutions := substs |}.
Proof.
  unfold expand; simpl. rewrite expand_loop_head, catch_restore_write by done.
  apply and_then_write_ext. by intros os ->.
Qed.

(** [head] is [pre] and then one substitution: [pre] is written out, the
    substitution is made, the rest is expanded. *)
Lemma expand_front_subst pre ref rest vd substs out :
  expand mem arg
    {| m_text := (pre ++ ref) ++ rest;
       m_substitutions :=
         {| s_begin := length pre; s_end := length (pre ++ ref); var_def := vd |}
         :: map (shift_subst (length (pre ++ ref))) substs |} out =
  os_write pre out >>>
  (λ out1, match vd with
           | Some (_, eval_func) =>
               call_restoring (os_flags out1) (eval_func mem arg out1)
           | None => os_write (txt "@") out1
           end) >>>
  expand mem arg {| m_text := rest; m_substitutions := substs |}.
Proof.
  unfold expand; simpl. unfold expand_body at 1; simpl.
  unfold sv_substr; simpl. rewrite Nat.sub_0_r, drop_0, <- app_assoc, take_app_length.
  rewrite app_assoc.
  rewrite <- (Nat.add_0_r (length (pre ++ ref))) at 1.
  rewrite !and_then_assoc, catch_restore_write by done.
  apply and_then_write_ext. intros out1 Hfl1. rewrite Hfl1.
  destruct vd as [[name eval_func]|].
  - destruct (eval_func mem arg out1) as [out2|out2]; simpl; [|done].
    by rewrite expand_loop_shift.
  - rewrite catch_restore_write by done.
    apply and_then_write_ext. intros out2 Hfl2. rewrite Hfl2, <- Hfl1.
    by rewrite expand_loop_shift.
Qed.

End ExpandFront.

Section Front.
Context {obj T : Type}.
Implicit Types (self : Substituter (obj:=obj) (T:=T)) (st : pstate (obj:=obj) (T:=T)).
Implicit Types (templ : Template (obj:=obj) (T:=T)).

(** [parse] on a text whose first iteration consumes exactly [head]. *)
Lemma parse_front self head rest st1 templ :
  parse_body self (head ++ rest) parse_init = Continue st1 →
  p_curr st1 = length head →
  ∃ st, parse_loop self rest (S (length rest)) parse_init = Some st ∧
        parse self rest templ = Some (parse_return self rest templ st) ∧
        parse self (head ++ rest) templ =
          Some (parse_return self (head ++ rest) templ (resume st1 st)).
Proof.
  intros Hbody Hcur.
  destruct (parse_loop_first self head rest st1 Hbody Hcur) as (st & Hst & _ & Hrun).
  exists st. unfold parse. by rewrite Hst, Hrun.
Qed.

End Front.

(** ** FindArg1 *)

Section FindArgFacts.
Context {ty : Type} (conv : ty → ty → bool).

Lemma FindArg1_Some C types k :
  FindArg1 conv C types = Some k →
  (∃ A, types !! k = Some A ∧ conv A C = true) ∧
  (∀ j A', j < k → types !! j = Some A' → conv A' C = false).
Proof.
  revert k. induction types as [|A B IH]; simpl; intros k; [done|].
  unfold FindArg2. destruct (conv A C) eqn:HA.
  - intros [= <-]. split; [by exists A | intros; lia].
  - destruct (FindArg1 conv C B) as [k'|]; simpl; [|done].
    intros [= <-]. destruct (IH k' eq_refl) as [Hk Hmin]. split; [done|].
    intros [|j] A' Hj; simpl; [by intros [= <-] | apply Hmin; lia].
Qed.

Lemma FindArg1_None C types :
  FindArg1 conv C types = None ↔ ∀ A, A ∈ types → conv A C = false.
Proof.
  induction types as [|A B IH]; simpl.
  - split; [|done]. intros _ A HA. by apply elem_of_nil in HA.
  - unfold FindArg2. destruct (conv A C) eqn:HA.
    + split; [done|]. intros H. rewrite H in HA; [done | by left].
    + destruct (FindArg1 conv C B) as [k'|]; simpl.
      * split; [done|]. intros H.
        assert (Some k' = None) as Hk; [|done].
        apply IH. intros A' HA'. apply H. by right.
      * split; [|done]. intros _ A' [->|HA']%elem_of_cons; [done|]. by apply IH.
Qed.

End FindArgFacts.

(** * The claims *)

Section Claims.
Context {ty : Type} (conv : ty → ty → bool) (pack : list ty).
Context {obj T : Type} (put : T → ostream → outcome).
Implicit Types (self : Substituter (obj:=obj) (T:=T)).
Implicit Types (templ : Template (obj:=obj) (T:=T)).
Implicit Types (subst : Substitution (obj:=obj) (T:=T)).
Implicit Types (substs : list (Substitution (obj:=obj) (T:=T))).
Implicit Types (mem : store (T:=T)) (arg : list obj).

(** A reference at the front of a text, behind a piece of text without
    marker: what [parse] records and what [expand] writes for it. *)
Lemma reference_front self pre ref name post templ0 :
  reference ref name → "@"%char ∉ pre →
  ∃ st, parse_loop self post (S (length post)) parse_init = Some st ∧
    parse self post templ0 = Some (parse_return self post templ0 st) ∧
    parse self (pre ++ ref ++ post) templ0 =
      Some (parse_return self (pre ++ ref ++ post) templ0
              (resume
                 (match m_variables self !! name with
                  | None => report self parse_init (UndefinedVariable name ref)
                              (length (pre ++ ref))
                  | Some func => record parse_init (length pre) (length (pre ++ ref))
                                   (Some (name, func))
                  end) st)).
Proof.
  intros Href Hpre. rewrite (app_assoc pre ref post).
  apply parse_front.
  - rewrite <- app_assoc, (parse_body_reference self pre ref name post) by done.
    by destruct (m_variables self !! name).
  - by destruct (m_variables self !! name).
Qed.

(** The run over [head ++ tok ++ post], where the references of [head] are
    all terminated and the first iteration over [tok ++ post] consumes
    exactly [tok]. *)
Lemma parse_loop_concat_front self head tok post st_h st1 :
  parse_loop self head (S (length head)) parse_init = Some st_h →
  forallb is_undefined (p_log st_h) = true →
  parse_body self (tok ++ post) parse_init = Continue st1 →
  p_curr st1 = length tok →
  ∃ st_p st,
    parse_loop self post (S (length post)) parse_init = Some st_p ∧
    parse_loop self (head ++ tok ++ post) (S (length (head ++ tok ++ post))) parse_init
      = Some st ∧
    spans_chain 0 (length head) (p_substitutions st_h) ∧
    p_substitutions st =
      p_substitutions st_h ++
      map (shift_subst (length head))
        (p_substitutions st1 ++ map (shift_subst (length tok)) (p_substitutions st_p)) ∧
    p_error st = p_error st_h || (p_error st1 || p_error st_p) ∧
    p_log st = p_log st_h ++ (p_log st1 ++ p_log st_p).
Proof.
  intros Hhead Hlog Hbody Hcur.
  destruct (parse_loop_first self tok post st1 Hbody Hcur) as (st_p & Hpost & _ & Hrest).
  destruct (parse_loop_concat self head (tok ++ post) st_h Hhead Hlog)
    as (st_r & st & Hrest' & Hfull & Hchain & Hsubs & Herr & Hl).
  rewrite Hrest in Hrest'. injection Hrest' as <-.
  simpl in Hsubs, Herr, Hl. rewrite Hcur in Hsubs.
  exists st_p, st. by split_and!.
Qed.

(** What [parse] returns for the three texts, in terms of the three runs. *)
Lemma parse_of_loop self text_ templ0 st :
  parse_loop self text_ (S (length text_)) parse_init = Some st →
  parse self text_ templ0 = Some (parse_return self text_ templ0 st).
Proof. intros H. unfold parse. by rewrite H. Qed.

Lemma sv_find_not_elem_of ch (sv : text) pos : ch ∉ sv → sv_find ch sv pos = None.
Proof.
  intros Hnot. destruct (sv_find ch sv pos) as [i|] eqn:E; [|done].
  apply sv_find_Some in E as (_ & _ & Hi & _).
  by apply list_elem_of_lookup_2 in Hi.
Qed.

Lemma parse_loop_S self text_ fuel st :
  parse_loop self text_ (S fuel) st =
  match parse_body self text_ st with
  | Break st' => Some st'
  | Continue st' => parse_loop self text_ fuel st'
  end.
Proof. reflexivity. Qed.

(** A marker at the end of the text is reported. *)
Lemma parse_loop_marker_at_end self :
  parse_loop self (txt "@") 2 parse_init =
  Some (report self parse_init UnterminatedMarker 0).
Proof. reflexivity. Qed.

(** An opening brace with no closing brace behind it is reported. *)
Lemma parse_loop_open_brace self tail st :
  "}"%char ∉ tail →
  parse_loop self (txt "@{" ++ tail) (S (length (txt "@{" ++ tail))) parse_init = Some st →
  (log_level self, UnterminatedBrace) ∈ p_log st.
Proof.
  intros Htail Hrun. rewrite parse_loop_S in Hrun.
  pose proof (parse_body_marker self [] "{" tail parse_init
                ltac:(apply not_elem_of_nil) eq_refl) as Hbody.
  destruct (decide ("{"%char = "{"%char)); [|done].
  rewrite sv_find_not_elem_of in Hbody by done.
  change (parse_body self (txt "@{" ++ tail) parse_init =
          Continue (report self parse_init UnterminatedBrace 2)) in Hbody.
  rewrite Hbody in Hrun.
  apply parse_loop_log_grows in Hrun as [l ->]. simpl. by left.
Qed.

(** C1 (as amended). In lenient mode every text parses. Take a reference to
    an undefined variable that stands behind a text [head] whose references
    are all terminated. A warning is logged for it and no substitution is
    recorded for it: the template has the substitutions of [head] and those
    of the text after the reference, and no other. Expansion writes the
    reference out as it stands in the text, between the expansion of [head]
    and that of the text after it. A reference to a defined variable in that
    place is recorded, and expansion calls its evaluator there. *)
Theorem lenient_undefined_reference_kept self head ref name post templ0 :
  m_lenient self = true → reference ref name → terminated self head →
  (∀ text_, ∃ templ log, parse self text_ templ0 = Some (true, templ, log)) ∧
  ∃ templ_h log_h templ_p log_p templ,
    parse self head templ0 = Some (true, templ_h, log_h) ∧
    parse self post templ0 = Some (true, templ_p, log_p) ∧
    m_text templ = head ++ ref ++ post ∧
    match m_variables self !! name with
    | None =>
        parse self (head ++ ref ++ post) templ0 =
          Some (true, templ,
                log_h ++ (level_warn, UndefinedVariable name ref) :: log_p) ∧
        m_substitutions templ =
          m_substitutions templ_h ++
          map (shift_subst (length (head ++ ref))) (m_substitutions templ_p) ∧
        (∀ s, s ∈ m_substitutions templ →
              s_end s ≤ length head ∨ length (head ++ ref) ≤ s_begin s) ∧
        ∀ mem arg out,
          expand mem arg templ out =
          expand mem arg templ_h out >>> os_write ref >>> expand mem arg templ_p
    | Some func =>
        parse self (head ++ ref ++ post) templ0 = Some (true, templ, log_h ++ log_p) ∧
        m_substitutions templ =
          m_substitutions templ_h ++
          {| s_begin := length head; s_end := length (head ++ ref);
             var_def := Some (name, func) |}
          :: map (shift_subst (length (head ++ ref))) (m_substitutions templ_p) ∧
        ∀ mem arg out,
          expand mem arg templ out =
          expand mem arg templ_h out >>>
          (λ out1, call_restoring (os_flags out1) (func mem arg out1)) >>>
          expand mem arg templ_p
    end.
Proof.
  intros Hlen Href (st_h & Hhead & Hlog). split.
  - intros text_. destruct (parse_total self text_ templ0) as (st & _ & _ & ->).
    unfold parse_return. rewrite Hlen, andb_false_r. eauto.
  - pose proof (parse_body_reference self [] ref name post parse_init Href
                  ltac:(apply not_elem_of_nil) eq_refl) as Hbody.
    simpl app in Hbody. simpl length in Hbody.
    assert (length (head ++ ref) = length head + length ref) as Hlr
      by apply length_app.
    destruct (m_variables self !! name) as [func|].
    + destruct (parse_loop_concat_front self head ref post st_h _ Hhead Hlog Hbody eq_refl)
        as (st_p & st & Hpost & Hfull & Hchain & Hsubs & Herr & Hl).
      rewrite (parse_of_loop _ _ _ _ Hhead), (parse_of_loop _ _ _ _ Hpost),
        (parse_of_loop _ _ _ _ Hfull).
      unfold parse_return. rewrite Hlen, !andb_false_r, Hl, Hsubs.
      simpl p_log. simpl p_substitutions.
      eexists _, _, _, _, {| m_text := head ++ ref ++ post; m_substitutions := _ |}.
      split; [done|]. split; [done|]. split; [done|]. split; [done|].
      simpl. rewrite map_map, Hlr. split.
      * do 2 f_equal; [unfold shift_subst; simpl; f_equal; lia|].
        apply map_ext. intros s. apply shift_subst_add.
      * intros mem arg out.
        rewrite <- (map_map (shift_subst (length ref)) (shift_subst (length head))).
        rewrite (expand_concat mem arg head (ref ++ post) (p_substitutions st_h)
                   ({| s_begin := 0; s_end := length ref; var_def := Some (name, func) |}
                    :: map (shift_subst (length ref)) (p_substitutions st_p))) by done.
        rewrite !and_then_assoc. apply and_then_ext. intros os.
        rewrite (expand_front_subst mem arg [] ref post (Some (name, func))).
        by rewrite os_write_nil.
    + destruct (parse_loop_concat_front self head ref post st_h _ Hhead Hlog Hbody eq_refl)
        as (st_p & st & Hpost & Hfull & Hchain & Hsubs & Herr & Hl).
      rewrite (parse_of_loop _ _ _ _ Hhead), (parse_of_loop _ _ _ _ Hpost),
        (parse_of_loop _ _ _ _ Hfull).
      unfold parse_return. rewrite Hlen, !andb_false_r, Hl, Hsubs.
      simpl p_log. simpl p_substitutions. unfold log_level. rewrite Hlen.
      eexists _, _, _, _, {| m_text := head ++ ref ++ post; m_substitutions := _ |}.
      split; [done|]. split; [done|]. split; [done|]. split; [done|].
      simpl. rewrite map_map, Hlr. split; [|split].
      * f_equal. apply map_ext. intros s. apply shift_subst_add.
      * intros s [Hs|Hs]%elem_of_app.
        -- left. by destruct (spans_chain_elem _ _ _ _ Hchain Hs) as (_ & _ & ?).
        -- right. apply list_elem_of_In, in_map_iff in Hs as (s' & <- & _).
           simpl. lia.
      * intros mem arg out.
        rewrite <- (map_map (shift_subst (length ref)) (shift_subst (length head))).
        rewrite (expand_concat mem arg head (ref ++ post) (p_substitutions st_h)
                   (map (shift_subst (length ref)) (p_substitutions st_p))) by done.
        rewrite !and_then_assoc. apply and_then_ext. intros os.
        by rewrite (expand_front_literal mem arg ref post).
Qed.

(** C2 (as amended). A field binding for the owner type [C] is resolved when
    it is defined, against the engine's context types in their order: it
    takes the first context type that converts to [C], whether or not a later
    one converts as well, and its evaluator prints the member of the argument
    in that position. When no context type converts to [C] the definition is
    rejected. *)
Theorem field_binding_takes_first_match name C var self :
  match FindArg1 conv C pack with
  | Some k =>
      (∃ A, pack !! k = Some A ∧ conv A C = true) ∧
      (∀ j A', j < k → pack !! j = Some A' → conv A' C = false) ∧
      define_field conv pack put name C var self =
        define_func name (field_eval put k var) self ∧
      (∀ mem arg o out, arg !! k = Some o →
         field_eval put k var mem arg out = put (var o) out)
  | None =>
      (∀ A, A ∈ pack → conv A C = false) ∧
      define_field conv pack put name C var self = Ill_formed
  end.
Proof.
  unfold define_field.
  destruct (FindArg1 conv C pack) as [k|] eqn:Hk.
  - destruct (FindArg1_Some conv C pack k Hk) as [Hfound Hmin].
    split_and!; [done..|]. intros mem arg o out Ho. unfold field_eval. by rewrite Ho.
  - split; [|done]. by apply FindArg1_None.
Qed.

(** C3 (as amended). [expand] leaves the stream's format flags as it found
    them, whether it returns or throws. An iteration that completes hands the
    stream to the next one with the flags the evaluator was called with, and
    so every evaluator is called with the flags the stream had on entry: an
    expansion runs the same when each evaluator is made to start from those
    flags. (Formatting state outside the flags word is not put back.) *)
Theorem expand_restores_flags mem arg templ out :
  os_flags (outcome_stream (expand mem arg templ out)) = os_flags out ∧
  (∀ curr subst out0 out1,
     os_flags out0 = os_flags out →
     expand_body mem arg (m_text templ) (os_flags out) curr subst out0 = Normal out1 →
     os_flags out1 = os_flags out0) ∧
  expand mem arg (guarded_template (os_flags out) templ) out =
  expand mem arg templ out.
Proof.
  split_and!.
  - unfold expand.
    destruct (expand_loop mem arg (m_text templ) (os_flags out) 0
                (m_substitutions templ) out) as [out'|out'] eqn:Hl; simpl; [|done].
    by apply (expand_loop_flags _ _ _ _ _ _ _ _ eq_refl Hl).
  - intros curr subst out0 out1 Hfl Hb. rewrite Hfl.
    by apply (expand_body_flags _ _ _ _ _ _ _ _ Hfl Hb).
  - unfold expand; simpl. by rewrite expand_loop_guarded.
Qed.

(** C5 (as amended). Take an escape [@@] that stands behind a text [head]
    whose references are all terminated, so that the scanner meets it as a
    marker. Whatever the leniency and whatever follows, it is recorded as a
    substitution without variable; the text parses if [head] and what
    follows do, with their diagnostics; and expansion writes exactly one [@]
    between the expansion of [head] and that of what follows. *)
Theorem escape_renders_one_marker self head post templ0 :
  terminated self head →
  ∃ ok_h templ_h log_h ok_p templ_p log_p templ,
    parse self head templ0 = Some (ok_h, templ_h, log_h) ∧
    parse self post templ0 = Some (ok_p, templ_p, log_p) ∧
    parse self (head ++ txt "@@" ++ post) templ0 =
      Some (ok_h && ok_p, templ, log_h ++ log_p) ∧
    if ok_h && ok_p then
      m_substitutions templ =
        m_substitutions templ_h ++
        {| s_begin := length head; s_end := length head + 2; var_def := None |}
        :: map (shift_subst (length head + 2)) (m_substitutions templ_p) ∧
      ∀ mem arg out,
        expand mem arg templ out =
        expand mem arg templ_h out >>> os_write (txt "@") >>> expand mem arg templ_p
    else templ = templ0.
Proof.
  intros (st_h & Hhead & Hlog).
  destruct (parse_loop_concat_front self head (txt "@@") post st_h
              (record parse_init 0 2 None) Hhead Hlog)
    as (st_p & st & Hpost & Hfull & Hchain & Hsubs & Herr & Hl);
    [exact (parse_body_escape self [] post parse_init ltac:(apply not_elem_of_nil) eq_refl)
    | done |].
  rewrite (parse_of_loop _ _ _ _ Hhead), (parse_of_loop _ _ _ _ Hpost),
    (parse_of_loop _ _ _ _ Hfull).
  unfold parse_return. rewrite Herr, Hl, Hsubs. simpl p_error. simpl p_log.
  simpl p_substitutions.
  destruct (p_error st_h), (p_error st_p), (m_lenient self); simpl;
    eexists _, _, _, _, _, _, _; (split; [done|]); (split; [done|]); (split; [done|]);
    simpl; try done.
  all: rewrite map_map; split;
    [ do 2 f_equal;
      [ unfold shift_subst; simpl; f_equal; lia
      | apply map_ext; intros s; apply shift_subst_add ]
    | intros mem arg out;
      rewrite <- (map_map (shift_subst 2) (shift_subst (length head)));
      rewrite (expand_concat mem arg head (txt "@@" ++ post) (p_substitutions st_h)
                 ({| s_begin := 0; s_end := 2; var_def := None |}
                  :: map (shift_subst 2) (p_substitutions st_p))) by done;
      rewrite and_then_assoc; apply and_then_ext; intros os;
      rewrite (expand_front_subst mem arg [] (txt "@@") post None);
      by rewrite os_write_nil ].
Qed.

(** C6. Defining a name that is defined throws, lenient engine or not, in
    each of the binding forms; in particular a second definition of a name
    throws right after the first. *)
Theorem duplicate_definition_throws self name :
  is_Some (m_variables self !! name) →
  let thrown := Runtime_error "Multiple definitions for same variable name" in
  (∀ func, define name func self = thrown) ∧
  (∀ func, define_func name func self = thrown) ∧
  (∀ var, define_value put name var self = thrown) ∧
  (∀ C var, is_Some (FindArg1 conv C pack) →
            define_field conv pack put name C var self = thrown) ∧
  (∀ lenient func,
     define name func {| m_lenient := lenient; m_variables := m_variables self |}
       = thrown).
Proof.
  intros [f Hf] thrown.
  assert (∀ func, define name func self = thrown) as Hdef
    by (intros func; unfold define; by rewrite Hf).
  split_and!; [done | done | intros; apply Hdef | | ].
  - intros C var [k Hk]. unfold define_field. rewrite Hk. apply Hdef.
  - intros lenient func. unfold define; simpl. by rewrite Hf.
Qed.

(** C7. In the template of a successful [parse], every substitution's span
    is non-empty and ends within the text, and of two substitutions the
    earlier one ends where the later one begins or before: the spans are
    disjoint and their begin offsets go strictly up. *)
Theorem parse_spans_ordered self text_ templ0 templ log :
  parse self text_ templ0 = Some (true, templ, log) →
  m_text templ = text_ ∧
  (∀ s, s ∈ m_substitutions templ →
        s_begin s < s_end s ∧ s_end s ≤ length (m_text templ)) ∧
  (∀ i j si sj, i < j →
        m_substitutions templ !! i = Some si →
        m_substitutions templ !! j = Some sj →
        s_end si ≤ s_begin sj ∧ s_begin si < s_begin sj).
Proof.
  destruct (parse_total self text_ templ0) as (st & _ & [Hcur Hchain] & ->).
  unfold parse_return.
  destruct (p_error st && negb (m_lenient self)); intros [= <- <-]; simpl.
  split; [done|]. split.
  - intros s Hs. destruct (spans_chain_elem _ _ _ _ Hchain Hs) as (_ & ? & ?). lia.
  - intros i j si sj Hij Hi Hj.
    pose proof (spans_chain_lookup _ _ _ _ _ _ _ Hchain Hij Hi Hj).
    apply list_elem_of_lookup_2 in Hi.
    destruct (spans_chain_elem _ _ _ _ Hchain Hi) as (_ & ? & _). lia.
Qed.

(** C8 (as amended). The text an expansion writes is settled by the
    template, the context arguments, the stream, and what the evaluators of
    the template do: two expansions of a template with the same context
    arguments, in memories in which each evaluator the template points at
    behaves the same, give the same result from the same stream, and the
    same string from the overload that returns one. That overload builds its
    own stream and gives it the classic locale, so the global locales the two
    runs are made under do not matter. The evaluator of a value binding
    behaves the same when the object it points to holds the same value, and
    the evaluator of a field binding reads the context arguments only; in
    memories that differ at the object a value binding points to, the same
    template and context arguments give different text. *)
Theorem expand_string_deterministic mem1 mem2 arg templ global1 global2 :
  (∀ subst name func,
     subst ∈ m_substitutions templ → var_def subst = Some (name, func) →
     ∀ out, func mem1 arg out = func mem2 arg out) →
  expand_string mem1 arg global1 templ = expand_string mem2 arg global2 templ ∧
  (∀ out, expand mem1 arg templ out = expand mem2 arg templ out) ∧
  imbue locale_classic (ostringstream global1) =
  imbue locale_classic (ostringstream global2) ∧
  os_locale (imbue locale_classic (ostringstream global1)) = locale_classic ∧
  (∀ var out, mem1 var = mem2 var →
              value_eval put var mem1 arg out = value_eval put var mem2 arg out) ∧
  (∀ k (var : obj → T) out,
     field_eval put k var mem1 arg out = field_eval put k var mem2 arg out).
Proof.
  intros Hevals.
  assert (∀ substs flags curr out,
            (∀ subst, subst ∈ substs → subst ∈ m_substitutions templ) →
            expand_loop mem1 arg (m_text templ) flags curr substs out =
            expand_loop mem2 arg (m_text templ) flags curr substs out) as Hloop.
  { induction substs as [|subst substs IH]; intros flags curr out Hin; simpl; [done|].
    assert (expand_body mem1 arg (m_text templ) flags curr subst out =
            expand_body mem2 arg (m_text templ) flags curr subst out) as ->.
    { unfold expand_body. apply and_then_ext. intros out1.
      destruct (var_def subst) as [[name func]|] eqn:Hv; [|done].
      rewrite (Hevals subst name func); [done | apply Hin; by left | done]. }
    apply and_then_ext. intros os. apply IH. intros s Hs. apply Hin. by right. }
  assert (∀ out, expand mem1 arg templ out = expand mem2 arg templ out) as Hexp.
  { intros out. unfold expand. by rewrite Hloop. }
  split_and!; [|done|done|done| |done].
  - unfold expand_string. by rewrite Hexp.
  - intros var out Hvar. unfold value_eval. by rewrite Hvar.
Qed.

(** C9. When [parse] returns [false] the caller's template is as it was
    before the call. When it returns [true] the template holds the text and
    the substitutions found, whatever it held before. *)
Theorem parse_failure_keeps_template self text_ templ0 ok templ log :
  parse self text_ templ0 = Some (ok, templ, log) →
  if ok
  then m_text templ = text_ ∧
       ∀ templ1, parse self text_ templ1 = Some (true, templ, log)
  else templ = templ0.
Proof.
  destruct (parse_total self text_ templ0) as (st & Hst & _ & ->).
  unfold parse_return.
  destruct (p_error st && negb (m_lenient self)) eqn:E; intros [= <- <- <-]; [done|].
  split; [done|]. intros templ1. unfold parse. rewrite Hst. simpl.
  unfold parse_return. by rewrite E.
Qed.

(** C10. A value binding [subst[name] = var] defines [name] with an
    evaluator that reads the memory at [var] when it is called: the template
    of the reference [@{name}] expands, for every memory [mem] and whatever
    the context arguments, to what [out << mem var] writes, the flags put
    back. [define_value] itself does not read the memory. *)
Theorem value_binding_reads_at_expansion self name var self' templ0 :
  "}"%char ∉ name →
  define_value put name var self = Defined_ok self' →
  m_variables self' !! name = Some (value_eval put var) ∧
  ∃ templ,
    parse self' (txt "@{" ++ name ++ txt "}") templ0 = Some (true, templ, []) ∧
    ∀ mem arg out,
      expand mem arg templ out = call_restoring (os_flags out) (put (mem var) out).
Proof.
  intros Hname Hdef.
  assert (m_variables self' !! name = Some (value_eval put var)) as Hvar.
  { unfold define_value, define_func, define in Hdef.
    destruct (m_variables self !! name); [done|].
    injection Hdef as <-. simpl. apply lookup_insert_eq. }
  split; [done|].
  destruct (reference_front self' [] (txt "@{" ++ name ++ txt "}") name [] templ0)
    as (st & Hst & _ & Hfull); [by constructor | by apply not_elem_of_nil |].
  rewrite Hvar in Hfull. simpl app in Hfull. rewrite app_nil_r in Hfull.
  injection Hst as <-.
  rewrite resume_init in Hfull. unfold parse_return in Hfull; simpl in Hfull.
  eexists. split; [exact Hfull|].
  intros mem arg out.
  pose proof (expand_front_subst mem arg [] (txt "@{" ++ name ++ txt "}") []
                (Some (name, value_eval put var)) [] out) as Hexp.
  simpl in Hexp. rewrite app_nil_r in Hexp. simpl. rewrite Hexp.
  rewrite os_write_nil. simpl.
  rewrite (and_then_ext _ _ Normal); [by rewrite and_then_Normal|].
  intros os. by apply expand_empty.
Qed.

End Claims.

(** * The claims at the worked instance *)

(** The example of the header's documentation: [<@x:@y>] with [a.y] and
    [b.x] at 0 and 0, then 1 and 2, then 2 and 4. *)
Example documented_example :
  ∃ templ,
    parse ex_subst (txt "<@x:@y>") empty_Template = Some (true, templ, []) ∧
    expand_string ex_mem [CtxA 0 0; CtxB 0 0] locale_classic templ = Some (txt "<0:0>") ∧
    expand_string ex_mem [CtxA 0 1; CtxB 0 2] locale_classic templ = Some (txt "<2:1>") ∧
    expand_string ex_mem [CtxA 0 2; CtxB 0 4] locale_classic templ = Some (txt "<4:2>").
Proof. eexists. split; [vm_compute; reflexivity|]. by vm_compute. Qed.

(** C1, the claim as stated fails: in lenient mode the text [a@{u}b@x], with
    [u] undefined and [x] bound to a value 7, expands to [a@{u}b7]; the
    reference [@{u}] is in the output, which is not [ab7]. *)
Lemma undefined_reference_not_omitted :
  ∃ templ log,
    parse ex_lenient (txt "a@{u}b@x") empty_Template = Some (true, templ, log) ∧
    map (λ s, (s_begin s, s_end s)) (m_substitutions templ) = [(6, 8)] ∧
    expand_string ex_mem [] locale_classic templ = Some (txt "a@{u}b7") ∧
    expand_string ex_mem [] locale_classic templ ≠ Some (txt "ab7").
Proof.
  eexists _, _. split; [vm_compute; reflexivity|]. by vm_compute.
Qed.

Lemma lenient_undefined_reference_kept_witness :
  m_lenient ex_lenient = true ∧
  reference (txt "@{u}") (txt "u") ∧
  terminated ex_lenient (txt "a@x-") ∧
  ∃ templ_h log_h templ_p log_p templ,
    parse ex_lenient (txt "a@x-") empty_Template = Some (true, templ_h, log_h) ∧
    parse ex_lenient (txt "b") empty_Template = Some (true, templ_p, log_p) ∧
    parse ex_lenient (txt "a@x-@{u}b") empty_Template =
      Some (true, templ,
            log_h ++ (level_warn, UndefinedVariable (txt "u") (txt "@{u}")) :: log_p) ∧
    m_substitutions templ =
      m_substitutions templ_h ++ map (shift_subst 8) (m_substitutions templ_p) ∧
    (∀ s, s ∈ m_substitutions templ → s_end s ≤ 4 ∨ 8 ≤ s_begin s) ∧
    ∀ mem arg out,
      expand mem arg templ out =
      expand mem arg templ_h out >>> os_write (txt "@{u}") >>> expand mem arg templ_p.
Proof.
  assert (reference (txt "@{u}") (txt "u")) as Href
    by (apply (reference_braced (txt "u")); compute_done).
  assert (terminated ex_lenient (txt "a@x-")) as Hhead
    by (eexists; split; vm_compute; reflexivity).
  split; [reflexivity|]. split; [exact Href|]. split; [exact Hhead|].
  destruct (lenient_undefined_reference_kept ex_lenient (txt "a@x-") (txt "@{u}")
              (txt "u") (txt "b") empty_Template eq_refl Href Hhead)
    as (_ & templ_h & log_h & templ_p & log_p & templ & Hh & Hp & _ & Hcase).
  change (m_variables ex_lenient !! txt "u") with (@None (EvalFunc (obj:=ctx_obj) (T:=N)))
    in Hcase.
  exists templ_h, log_h, templ_p, log_p, templ.
  split; [exact Hh|]. split; [exact Hp|]. exact Hcase.
Defined.

(** C2, the claim as stated fails: both context types of the instance
    convert to [Base], and [subst["id"] = &Base::id] is accepted; the
    reference prints the [id] of the first context argument. *)
Lemma ambiguous_owner_type_accepted :
  length (List.filter (λ A, ex_conv A ty_Base) ex_pack) = 2 ∧
  ∃ self templ,
    define_field ex_conv ex_pack ex_put (txt "id") ty_Base ex_id (new_Substituter false)
      = Defined_ok self ∧
    parse self (txt "@{id}") empty_Template = Some (true, templ, []) ∧
    expand_string ex_mem [CtxA 1 0; CtxB 2 0] locale_classic templ = Some (txt "1").
Proof.
  split; [reflexivity|]. eexists _, _. split; [vm_compute; reflexivity|].
  split; [vm_compute; reflexivity|]. by vm_compute.
Qed.

(** C3, the claim as stated fails: an evaluator that sets the precision
    leaves it set; the stream comes back from [expand] with precision 3, not
    the 6 it had. *)
Lemma precision_not_restored :
  ∃ self templ out',
    define_func (txt "p") ex_eval_precision (new_Substituter false) = Defined_ok self ∧
    parse self (txt "@p") empty_Template = Some (true, templ, []) ∧
    expand ex_mem [] templ (ostringstream locale_classic) = Normal out' ∧
    os_precision (ostringstream locale_classic) = 6%N ∧
    os_precision out' = 3%N.
Proof.
  eexists _, _, _. split; [vm_compute; reflexivity|].
  split; [vm_compute; reflexivity|]. split; [vm_compute; reflexivity|]. by vm_compute.
Qed.

(** The flags, unlike the precision, come back: on return and on a throw. *)
Example flags_restored :
  ∃ self1 self2 templ1 templ2 out1 out2,
    define_func (txt "h") ex_eval_hex (new_Substituter false) = Defined_ok self1 ∧
    define_func (txt "t") ex_eval_throw (new_Substituter false) = Defined_ok self2 ∧
    parse self1 (txt "a@hb") empty_Template = Some (true, templ1, []) ∧
    parse self2 (txt "a@tb") empty_Template = Some (true, templ2, []) ∧
    expand ex_mem [] templ1 (ostringstream locale_classic) = Normal out1 ∧
    expand ex_mem [] templ2 (ostringstream locale_classic) = Thrown out2 ∧
    os_flags out1 = default_flags ∧ os_buf out1 = txt "ab" ∧
    os_flags out2 = default_flags ∧ os_buf out2 = txt "a".
Proof.
  eexists _, _, _, _, _, _. split; [vm_compute; reflexivity|].
  split; [vm_compute; reflexivity|]. split; [vm_compute; reflexivity|].
  split; [vm_compute; reflexivity|]. split; [vm_compute; reflexivity|].
  split; [vm_compute; reflexivity|]. by vm_compute.
Qed.

(** C5, the claim as stated fails: in [@{@@}] the two characters [@@] are the
    name of a variable. With [@@] bound to a value 7 the text expands to [7],
    and no [@] is written. *)
Lemma braced_marker_pair_is_a_name :
  ∃ templ,
    parse ex_at_at (txt "@{@@}") empty_Template = Some (true, templ, []) ∧
    refers_to templ (txt "@@") = true ∧
    expand_string ex_mem [] locale_classic templ = Some (txt "7") ∧
    "@"%char ∉ txt "7".
Proof.
  eexists. split; [vm_compute; reflexivity|].
  split; [by vm_compute|]. split; [by vm_compute | compute_done].
Qed.

Lemma escape_renders_one_marker_witness :
  terminated ex_subst (txt "<@x> 100% ") ∧
  ∃ templ_h templ_p templ,
    parse ex_subst (txt "<@x> 100% ") empty_Template = Some (true, templ_h, []) ∧
    parse ex_subst (txt " done") empty_Template = Some (true, templ_p, []) ∧
    parse ex_subst (txt "<@x> 100% @@ done") empty_Template = Some (true, templ, []) ∧
    ∀ mem arg out,
      expand mem arg templ out =
      expand mem arg templ_h out >>> os_write (txt "@") >>> expand mem arg templ_p.
Proof.
  assert (terminated ex_subst (txt "<@x> 100% ")) as Hhead
    by (eexists; split; vm_compute; reflexivity).
  split; [exact Hhead|].
  destruct (escape_renders_one_marker ex_subst (txt "<@x> 100% ") (txt " done")
              empty_Template Hhead)
    as (ok_h & templ_h & log_h & ok_p & templ_p & log_p & templ & Hh & Hp & Hfull & Hcase).
  assert (ok_h = true ∧ log_h = []) as [-> ->].
  { pose proof Hh as Hh'. vm_compute in Hh'. by injection Hh' as <- _ <-. }
  assert (ok_p = true ∧ log_p = []) as [-> ->].
  { pose proof Hp as Hp'. vm_compute in Hp'. by injection Hp' as <- _ <-. }
  exists templ_h, templ_p, templ.
  split; [exact Hh|]. split; [exact Hp|]. split; [exact Hfull|]. exact (proj2 Hcase).
Defined.

Lemma duplicate_definition_throws_witness :
  is_Some (m_variables ex_subst !! txt "x") ∧
  (∀ func, define (txt "x") func ex_subst
           = Runtime_error "Multiple definitions for same variable name") ∧
  (∀ var, define_value ex_put (txt "x") var ex_subst
          = Runtime_error "Multiple definitions for same variable name").
Proof.
  assert (is_Some (m_variables ex_subst !! txt "x")) as Hx
    by (vm_compute; eexists; reflexivity).
  split; [exact Hx|].
  destruct (duplicate_definition_throws ex_conv ex_pack ex_put ex_subst (txt "x") Hx)
    as (Hdef & _ & Hval & _).
  split; [exact Hdef | exact Hval].
Defined.

Lemma parse_spans_ordered_witness :
  ∃ templ,
    parse ex_subst (txt "<@x:@y>") empty_Template = Some (true, templ, []) ∧
    map (λ s, (s_begin s, s_end s)) (m_substitutions templ) = [(1, 3); (4, 6)] ∧
    (∀ s, s ∈ m_substitutions templ →
          s_begin s < s_end s ∧ s_end s ≤ length (m_text templ)) ∧
    (∀ i j si sj, i < j →
          m_substitutions templ !! i = Some si →
          m_substitutions templ !! j = Some sj →
          s_end si ≤ s_begin sj ∧ s_begin si < s_begin sj).
Proof.
  eexists. split; [vm_compute; reflexivity|]. split; [reflexivity|].
  exact (proj2 (parse_spans_ordered ex_subst (txt "<@x:@y>") empty_Template _ []
                  eq_refl)).
Defined.

Lemma parse_failure_keeps_template_witness :
  let old : Template (obj:=ctx_obj) (T:=N) :=
    {| m_text := txt "old"; m_substitutions := [] |} in
  ∃ templ log,
    parse (new_Substituter false) (txt "@{missing}") old = Some (false, templ, log) ∧
    templ = old.
Proof.
  intros old.
  assert (parse (new_Substituter false) (txt "@{missing}") old =
          Some (false, old,
                [(level_error, UndefinedVariable (txt "missing") (txt "@{missing}"))]))
    as Hparse by (vm_compute; reflexivity).
  eexists _, _. split; [exact Hparse|].
  exact (parse_failure_keeps_template _ _ _ false _ _ Hparse).
Defined.

Lemma value_binding_reads_at_expansion_witness :
  ("}"%char ∉ txt "v") ∧
  ∃ self',
    define_value ex_put (txt "v") 3 (new_Substituter (obj:=ctx_obj) false)
      = Defined_ok self' ∧
    ∃ templ,
      parse self' (txt "@{v}") empty_Template = Some (true, templ, []) ∧
      ∀ mem arg out,
        expand mem arg templ out = call_restoring (os_flags out) (ex_put (mem 3) out).
Proof.
  assert ("}"%char ∉ txt "v") as Hname by compute_done.
  split; [exact Hname|]. eexists. split; [reflexivity|].
  exact (proj2 (value_binding_reads_at_expansion ex_put
                  (new_Substituter (obj:=ctx_obj) false) (txt "v") 3 _ empty_Template
                  Hname eq_refl)).
Defined.

(** The text of a value binding follows the memory: 7, then 8. *)
Example value_binding_follows_memory :
  ∃ templ,
    parse ex_lenient (txt "@x") empty_Template = Some (true, templ, []) ∧
    expand_string (λ _, 7%N) [] locale_classic templ = Some (txt "7") ∧
    expand_string (λ _, 8%N) [CtxA 1 2] locale_classic templ = Some (txt "8").
Proof. eexists. split; [vm_compute; reflexivity|]. by vm_compute. Qed.

(** * Further properties of the header *)

Section More.
Context {ty : Type} (conv : ty → ty → bool) (pack : list ty).
Context {obj T : Type} (put : T → ostream → outcome).
Implicit Types (self : Substituter (obj:=obj) (T:=T)) (st : pstate (obj:=obj) (T:=T)).
Implicit Types (templ : Template (obj:=obj) (T:=T)).
Implicit Types (subst : Substitution (obj:=obj) (T:=T)).
Implicit Types (substs : list (Substitution (obj:=obj) (T:=T))).
Implicit Types (mem : store (T:=T)) (arg : list obj).

(** ** What a substitution covers *)

(** The span of [subst] in [text_] is an escape [@@], or it is a reference to
    the variable [subst] points at, an entry of the table of [self]. *)
Definition covers self (text_ : text) subst : Prop :=
  s_begin subst + 2 ≤ s_end subst ∧ s_end subst ≤ length text_ ∧
  match var_def subst with
  | None => sv_substr text_ (s_begin subst) (s_end subst - s_begin subst) = txt "@@"
  | Some (name, func) =>
      m_variables self !! name = Some func ∧
      reference (sv_substr text_ (s_begin subst) (s_end subst - s_begin subst)) name
  end.

Lemma escape_substr (text_ : text) i :
  text_ !! i = Some "@"%char → i + 1 < length text_ →
  sv_at text_ (i + 1) = "@"%char →
  sv_substr text_ i (i + 2 - i) = txt "@@".
Proof.
  intros Hi Hlt Hc.
  destruct (lookup_lt_is_Some_2 text_ (i + 1) Hlt) as [c Hc'].
  rewrite (sv_at_lookup _ _ _ Hc') in Hc. subst c.
  unfold sv_substr. rewrite (drop_S _ _ _ Hi).
  replace (S i) with (i + 1) by lia. rewrite (drop_S _ _ _ Hc').
  replace (i + 2 - i) with 2 by lia. simpl. by rewrite take_0.
Qed.

Lemma lookup_and_record_covers self text_ st i ch var_name curr :
  Forall (covers self text_) (p_substitutions st) →
  i + 2 ≤ curr → curr ≤ length text_ →
  (ch = "@"%char → sv_substr text_ i (curr - i) = txt "@@") →
  (ch ≠ "@"%char → reference (sv_substr text_ i (curr - i)) var_name) →
  Forall (covers self text_)
    (p_substitutions
       (match lookup_and_record self text_ st i ch var_name curr with
        | Break st' | Continue st' => st'
        end)).
Proof.
  intros Hall Hle Hend Hesc Href. unfold lookup_and_record.
  destruct (decide (ch = "@"%char)) as [Hch|Hch]; simpl.
  - apply Forall_app. split; [done|]. repeat constructor; simpl; [lia | done | by apply Hesc].
  - destruct (m_variables self !! var_name) as [func|] eqn:Hvar; simpl; [|done].
    apply Forall_app. split; [done|].
    repeat constructor; simpl; [lia | done | done | by apply Href].
Qed.

Lemma parse_body_covers self text_ st :
  Forall (covers self text_) (p_substitutions st) →
  Forall (covers self text_)
    (p_substitutions
       (match parse_body self text_ st with Break st' | Continue st' => st' end)).
Proof.
  intros Hall. unfold parse_body.
  destruct (sv_find "@" text_ (p_curr st)) as [i|] eqn:Ei; [|done].
  pose proof Ei as (Hle & Hlt & Hi & _)%sv_find_Some.
  destruct (Nat.eqb_spec (i + 1) (length text_)) as [Hend|Hend]; [done|].
  destruct (decide (sv_at text_ (i + 1) = "{"%char)) as [Hb|Hb].
  - assert (text_ !! (i + 1) = Some "{"%char) as Hi1.
    { destruct (lookup_lt_is_Some_2 text_ (i + 1)) as [c Hc]; [lia|].
      by rewrite <- Hb, (sv_at_lookup _ _ _ Hc). }
    destruct (sv_find "}" text_ (i + 2)) as [j|] eqn:Ej; [|done].
    pose proof Ej as (Hle' & Hlt' & _ & _)%sv_find_Some.
    apply lookup_and_record_covers; [done | lia | lia | |].
    + intros Hat. by rewrite Hb in Hat.
    + intros _. by apply braced_reference_substr.
  - apply lookup_and_record_covers; [done | lia | lia | |].
    + intros Hat. apply escape_substr; [done | lia | done].
    + intros Hat. apply short_reference_substr; [done | lia | done..].
Qed.

Lemma parse_loop_covers self text_ fuel st st' :
  Forall (covers self text_) (p_substitutions st) →
  parse_loop self text_ fuel st = Some st' →
  Forall (covers self text_) (p_substitutions st').
Proof.
  revert st. induction fuel as [|fuel IH]; simpl; intros st Hall; [done|].
  pose proof (parse_body_covers self text_ st Hall) as Hb.
  destruct (parse_body self text_ st) as [st1|st1].
  - by intros [= <-].
  - by apply IH.
Qed.

(** X1. Every substitution of a template that [parse] built covers, in the
    text, an escape [@@] (and then points at no variable) or a reference to
    the variable it points at; that variable is an entry of the engine's
    table; the span is two characters long or longer. *)
Theorem parse_substitutions_cover self text_ templ0 templ log :
  parse self text_ templ0 = Some (true, templ, log) →
  Forall (covers self (m_text templ)) (m_substitutions templ).
Proof.
  destruct (parse_total self text_ templ0) as (st & Hst & _ & ->).
  apply parse_loop_covers in Hst; [|constructor].
  unfold parse_return.
  destruct (p_error st && negb (m_lenient self)); intros [= <- <-]. done.
Qed.


(** ** refers_to *)

Lemma refers_to_true templ name :
  refers_to templ name = true ↔
  ∃ subst func, subst ∈ m_substitutions templ ∧ var_def subst = Some (name, func).
Proof.
  unfold refers_to. rewrite existsb_exists. split.
  - intros (subst & Hin & Hv). destruct (var_def subst) as [[n func]|] eqn:E; [|done].
    apply bool_decide_eq_true in Hv as ->. exists subst, func.
    by rewrite list_elem_of_In.
  - intros (subst & func & Hin & Hv). exists subst. rewrite <- list_elem_of_In.
    split; [done|]. rewrite Hv. by apply bool_decide_eq_true_2.
Qed.

(** X2. For a template that [parse] built, [refers_to] answers true for a
    name only if the name is defined and the text holds a reference to it;
    and it answers true if the text holds a reference to a defined name
    behind a text whose references are all terminated. *)
Theorem refers_to_parsed self text_ templ0 templ log name :
  parse self text_ templ0 = Some (true, templ, log) →
  (refers_to templ name = true →
     is_Some (m_variables self !! name) ∧
     ∃ i ref, reference ref name ∧ i + length ref ≤ length text_ ∧
              sv_substr text_ i (length ref) = ref) ∧
  (∀ head ref post,
     text_ = head ++ ref ++ post → terminated self head → reference ref name →
     is_Some (m_variables self !! name) → refers_to templ name = true).
Proof.
  intros Hparse. split.
  - intros (subst & func & Hin & Hv)%refers_to_true.
    pose proof (parse_substitutions_cover self text_ templ0 templ log Hparse) as Hall.
    rewrite Forall_forall in Hall. destruct (Hall subst Hin) as (Hlen & Hend & Hc).
    rewrite Hv in Hc. destruct Hc as [Hvar Href]. split; [by eexists|].
    assert (m_text templ = text_) as Htext.
    { destruct (parse_total self text_ templ0) as (st & _ & _ & Hp).
      rewrite Hp in Hparse. unfold parse_return in Hparse.
      destruct (p_error st && negb (m_lenient self)); [done|]. by injection Hparse as <- _. }
    rewrite Htext in *.
    exists (s_begin subst), (sv_substr text_ (s_begin subst) (s_end subst - s_begin subst)).
    split; [done|].
    assert (length (sv_substr text_ (s_begin subst) (s_end subst - s_begin subst))
            = s_end subst - s_begin subst) as ->.
    { unfold sv_substr. rewrite length_take, length_drop. lia. }
    split; [lia | done].
  - intros head ref post -> (st_h & Hhead & Hlog) Href [func Hfunc].
    pose proof (parse_body_reference self [] ref name post parse_init Href
                  ltac:(apply not_elem_of_nil) eq_refl) as Hbody.
    rewrite Hfunc in Hbody. simpl app in Hbody.
    destruct (parse_loop_concat_front self head ref post st_h _ Hhead Hlog Hbody eq_refl)
      as (st_p & st & _ & Hfull & _ & Hsubs & _ & _).
    rewrite (parse_of_loop _ _ _ _ Hfull) in Hparse. unfold parse_return in Hparse.
    destruct (p_error st && negb (m_lenient self)); [done|].
    injection Hparse as <- _. apply refers_to_true. simpl. rewrite Hsubs.
    exists (shift_subst (length head)
              {| s_begin := 0; s_end := length ref; var_def := Some (name, func) |}), func.
    split; [|done]. apply elem_of_app. right. simpl. by left.
Qed.

(** ** A text without marker *)

Lemma catch_restore_os_write s out :
  catch_restore (os_flags out) (os_write s out) = os_write s out.
Proof.
  pose proof (os_write_flags s out) as Hfl.
  destruct (os_write s out) as [os|os]; simpl in *; [done|].
  by rewrite <- Hfl, set_flags_same.
Qed.

(** X3. A text without [@] parses, lenient engine or not, to a template
    without substitutions and with nothing logged; its expansion writes the
    text as it stands, and the overload that returns a string returns the
    text. *)
Theorem text_without_marker_unchanged self text_ templ0 :
  "@"%char ∉ text_ →
  parse self text_ templ0 =
    Some (true, {| m_text := text_; m_substitutions := [] |}, []) ∧
  (∀ mem arg out,
     expand mem arg {| m_text := text_; m_substitutions := [] |} out = os_write text_ out) ∧
  (∀ mem arg global,
     expand_string mem arg global {| m_text := text_; m_substitutions := [] |}
       = Some text_) ∧
  (∀ mem arg out, expand_text self mem arg text_ out = Some (true, os_write text_ out)).
Proof.
  intros Hnot.
  assert (parse self text_ templ0 =
            Some (true, {| m_text := text_; m_substitutions := [] |}, [])) as Hparse.
  { unfold parse. rewrite parse_loop_S. unfold parse_body. simpl p_curr.
    by rewrite sv_find_not_elem_of. }
  assert (∀ mem arg out,
            expand mem arg {| m_text := text_; m_substitutions := [] |} out
            = os_write text_ out) as Hexp.
  { intros mem arg out. unfold expand; simpl. unfold sv_tail; simpl.
    apply catch_restore_os_write. }
  split_and!; [done | done | |].
  - intros mem arg global. unfold expand_string. by rewrite Hexp.
  - intros mem arg out. unfold expand_text.
    assert (parse self text_ empty_Template =
              Some (true, {| m_text := text_; m_substitutions := [] |}, [])) as ->.
    { unfold parse. rewrite parse_loop_S. unfold parse_body. simpl p_curr.
      by rewrite sv_find_not_elem_of. }
    simpl. by rewrite Hexp.
Qed.

(** ** A reference on its own *)

Lemma single_reference self ref name func templ0 :
  reference ref name → m_variables self !! name = Some func →
  parse self ref templ0 =
    Some (true,
          {| m_text := ref;
             m_substitutions :=
               [{| s_begin := 0; s_end := length ref; var_def := Some (name, func) |}] |},
          []) ∧
  ∀ mem arg out,
    expand mem arg
      {| m_text := ref;
         m_substitutions :=
           [{| s_begin := 0; s_end := length ref; var_def := Some (name, func) |}] |} out
    = call_restoring (os_flags out) (func mem arg out).
Proof.
  intros Href Hvar.
  destruct (reference_front self [] ref name [] templ0 Href ltac:(apply not_elem_of_nil))
    as (st & Hst & _ & Hfull).
  rewrite Hvar in Hfull. simpl app in Hfull. rewrite app_nil_r in Hfull.
  injection Hst as <-. rewrite resume_init in Hfull.
  unfold parse_return in Hfull; simpl in Hfull. split; [exact Hfull|].
  intros mem arg out.
  pose proof (expand_front_subst mem arg [] ref [] (Some (name, func)) [] out) as Hexp.
  simpl in Hexp. rewrite app_nil_r in Hexp. rewrite Hexp.
  rewrite os_write_nil. simpl.
  rewrite (and_then_ext _ _ Normal); [by rewrite and_then_Normal|].
  intros os. by apply expand_empty.
Qed.

(** X4. A text that is one reference to a defined variable, in the braced
    or in the short form, parses to one substitution over the whole text
    with nothing logged; its expansion is the call of the variable's
    evaluator with the flags put back, and [refers_to] answers true for the
    name. *)
Theorem reference_alone_calls_evaluator self ref name func templ0 :
  reference ref name → m_variables self !! name = Some func →
  ∃ templ,
    parse self ref templ0 = Some (true, templ, []) ∧
    refers_to templ name = true ∧
    ∀ mem arg out,
      expand mem arg templ out = call_restoring (os_flags out) (func mem arg out).
Proof.
  intros Href Hvar.
  destruct (single_reference self ref name func templ0 Href Hvar) as [Hparse Hexp].
  eexists. split; [exact Hparse|]. split; [|exact Hexp].
  unfold refers_to; simpl. by rewrite bool_decide_eq_true_2.
Qed.

(** X5. A field binding that is accepted takes the first context type that
    converts to the owner type, at position [k] say; the reference to the
    name then expands to what [out << obj.*var] writes for the [k]-th
    context argument, the flags put back, whatever the other arguments and
    the memory. *)
Theorem field_binding_prints_member self name C var self' templ0 :
  "}"%char ∉ name →
  define_field conv pack put name C var self = Defined_ok self' →
  ∃ k A templ,
    FindArg1 conv C pack = Some k ∧ pack !! k = Some A ∧ conv A C = true ∧
    parse self' (txt "@{" ++ name ++ txt "}") templ0 = Some (true, templ, []) ∧
    ∀ mem arg o out,
      arg !! k = Some o →
      expand mem arg templ out = call_restoring (os_flags out) (put (var o) out).
Proof.
  intros Hname Hdef. unfold define_field in Hdef.
  destruct (FindArg1 conv C pack) as [k|] eqn:Hk; [|done].
  destruct (FindArg1_Some conv C pack k Hk) as [(A & HA & Hconv) _].
  assert (m_variables self' !! name = Some (field_eval put k var)) as Hvar.
  { unfold define_func, define in Hdef.
    destruct (m_variables self !! name); [done|].
    injection Hdef as <-. simpl. apply lookup_insert_eq. }
  destruct (single_reference self' (txt "@{" ++ name ++ txt "}") name _ templ0
              (reference_braced name Hname) Hvar) as [Hparse Hexp].
  exists k, A. eexists. split_and!; [done.. | exact Hparse |].
  intros mem arg o out Ho. rewrite Hexp. unfold field_eval. by rewrite Ho.
Qed.

(** ** Texts put together *)

Lemma expand_no_substitutions mem arg (text_ : text) out :
  expand mem arg {| m_text := text_; m_substitutions := [] |} out = os_write text_ out.
Proof. unfold expand; simpl. unfold sv_tail; simpl. apply catch_restore_os_write. Qed.

Lemma refers_to_app (text_ text_h text_r : text) substs substs' (k : nat) name :
  refers_to {| m_text := text_;
               m_substitutions := substs ++ map (shift_subst k) substs' |} name =
  refers_to {| m_text := text_h; m_substitutions := substs |} name ||
  refers_to {| m_text := text_r; m_substitutions := substs' |} name.
Proof.
  unfold refers_to; simpl. rewrite existsb_app. f_equal.
  induction substs' as [|s l IH]; simpl; [done|]. by rewrite IH.
Qed.

(** X6. Behind a text [head] whose references are all terminated, a text
    parses as it does on its own: the text [head ++ rest] parses if both
    parts do, with the diagnostics of both; its template has the
    substitutions of [head] and then those of [rest], moved behind [head];
    it refers to the names either part refers to; and it expands to the
    expansion of [head] followed by that of [rest]. *)
Theorem parse_expand_concat self head rest templ0 :
  terminated self head →
  ∃ ok_h templ_h log_h ok_r templ_r log_r templ,
    parse self head templ0 = Some (ok_h, templ_h, log_h) ∧
    parse self rest templ0 = Some (ok_r, templ_r, log_r) ∧
    parse self (head ++ rest) templ0 = Some (ok_h && ok_r, templ, log_h ++ log_r) ∧
    if ok_h && ok_r then
      m_substitutions templ =
        m_substitutions templ_h ++
        map (shift_subst (length head)) (m_substitutions templ_r) ∧
      (∀ name, refers_to templ name = refers_to templ_h name || refers_to templ_r name) ∧
      ∀ mem arg out,
        expand mem arg templ out = expand mem arg templ_h out >>> expand mem arg templ_r
    else templ = templ0.
Proof.
  intros (st_h & Hhead & Hlog).
  destruct (parse_loop_concat self head rest st_h Hhead Hlog)
    as (st_r & st & Hrest & Hfull & Hchain & Hsubs & Herr & Hl).
  rewrite (parse_of_loop _ _ _ _ Hhead), (parse_of_loop _ _ _ _ Hrest),
    (parse_of_loop _ _ _ _ Hfull).
  unfold parse_return. rewrite Herr, Hl, Hsubs.
  destruct (p_error st_h), (p_error st_r), (m_lenient self); simpl;
    eexists _, _, _, _, _, _, _; (split; [done|]); (split; [done|]); (split; [done|]);
    simpl; try done.
  all: split; [done|]; split;
    [ intros name; apply refers_to_app
    | intros mem arg out; by apply expand_concat ].
Qed.

(** X7. An opening [@{] with no closing brace behind it, met behind a text
    whose references are all terminated, is reported and takes its two
    characters only: what follows is scanned as it is on its own. A strict
    engine fails; a lenient one builds the template of the two parts and
    expands it to the expansion of the first, the two characters [@{] as
    they stand, and the expansion of what follows. *)
Theorem unterminated_brace_resumes self head tail templ0 :
  terminated self head → "}"%char ∉ tail →
  ∃ ok_h templ_h log_h ok_t templ_t log_t templ,
    parse self head templ0 = Some (ok_h, templ_h, log_h) ∧
    parse self tail templ0 = Some (ok_t, templ_t, log_t) ∧
    parse self (head ++ txt "@{" ++ tail) templ0 =
      Some (m_lenient self, templ,
            log_h ++ (log_level self, UnterminatedBrace) :: log_t) ∧
    if m_lenient self then
      m_substitutions templ =
        m_substitutions templ_h ++
        map (shift_subst (length head + 2)) (m_substitutions templ_t) ∧
      ∀ mem arg out,
        expand mem arg templ out =
        expand mem arg templ_h out >>> os_write (txt "@{") >>> expand mem arg templ_t
    else templ = templ0.
Proof.
  intros (st_h & Hhead & Hlog) Htail.
  pose proof (parse_body_marker self [] "{" tail parse_init
                ltac:(apply not_elem_of_nil) eq_refl) as Hbody.
  destruct (decide ("{"%char = "{"%char)); [|done].
  rewrite sv_find_not_elem_of in Hbody by done.
  change (parse_body self (txt "@{" ++ tail) parse_init =
          Continue (report self parse_init UnterminatedBrace 2)) in Hbody.
  destruct (parse_loop_concat_front self head (txt "@{") tail st_h _ Hhead Hlog Hbody eq_refl)
    as (st_t & st & Htl & Hfull & Hchain & Hsubs & Herr & Hl).
  rewrite (parse_of_loop _ _ _ _ Hhead), (parse_of_loop _ _ _ _ Htl),
    (parse_of_loop _ _ _ _ Hfull).
  unfold parse_return. rewrite Herr, Hl, Hsubs. simpl p_error. simpl p_log.
  simpl p_substitutions. rewrite orb_true_r. simpl andb.
  destruct (m_lenient self); simpl.
  - rewrite !andb_false_r.
    eexists _, _, _, _, _, _, _. split; [done|]. split; [done|]. split; [done|].
    simpl. rewrite map_map. split.
    + f_equal. apply map_ext. intros s. apply shift_subst_add.
    + intros mem arg out.
      rewrite <- (map_map (shift_subst 2) (shift_subst (length head))).
      rewrite (expand_concat mem arg head (txt "@{" ++ tail) (p_substitutions st_h)
                 (map (shift_subst 2) (p_substitutions st_t))) by done.
      rewrite !and_then_assoc. apply and_then_ext. intros os.
      by rewrite (expand_front_literal mem arg (txt "@{") tail).
  - destruct (p_error st_h), (p_error st_t); simpl;
      eexists _, _, _, _, _, _, _; (split; [done|]); (split; [done|]); by split.
Qed.

(** X8. A marker that is the last character of the text, behind a text
    whose references are all terminated, is reported. A strict engine
    fails; a lenient one builds the template of the text before the marker
    and expands it to the expansion of that text followed by the [@]. *)
Theorem trailing_marker_kept self head templ0 :
  terminated self head →
  ∃ ok_h templ_h log_h templ,
    parse self head templ0 = Some (ok_h, templ_h, log_h) ∧
    parse self (head ++ txt "@") templ0 =
      Some (m_lenient self, templ, log_h ++ [(log_level self, UnterminatedMarker)]) ∧
    if m_lenient self then
      m_substitutions templ = m_substitutions templ_h ∧
      ∀ mem arg out,
        expand mem arg templ out = expand mem arg templ_h out >>> os_write (txt "@")
    else templ = templ0.
Proof.
  intros (st_h & Hhead & Hlog).
  destruct (parse_loop_concat self head (txt "@") st_h Hhead Hlog)
    as (st_r & st & Hr & Hfull & Hchain & Hsubs & Herr & Hl).
  rewrite parse_loop_marker_at_end in Hr. injection Hr as <-.
  simpl in Hsubs, Herr, Hl. rewrite app_nil_r in Hsubs. rewrite orb_true_r in Herr.
  rewrite (parse_of_loop _ _ _ _ Hhead), (parse_of_loop _ _ _ _ Hfull).
  unfold parse_return. rewrite Herr, Hl, Hsubs. simpl andb.
  destruct (m_lenient self); simpl.
  - rewrite !andb_false_r.
    eexists _, _, _, _. split; [done|]. split; [done|]. simpl. split; [done|].
    intros mem arg out.
    pose proof (expand_concat mem arg head (txt "@") (p_substitutions st_h) [] out Hchain)
      as Hexp.
    simpl in Hexp. rewrite app_nil_r in Hexp. rewrite Hexp.
    apply and_then_ext. intros os. apply expand_no_substitutions.
  - destruct (p_error st_h); simpl; eexists _, _, _, _; (split; [done|]); by split.
Qed.

(** ** Substituter::expand *)

(** X9. The one-shot [expand] of the engine returns [false], and writes
    nothing, exactly when the text has an error and the engine is not
    lenient; otherwise it returns [true] and has expanded the template of
    the text. Either way the stream has the format flags it came with. *)
Theorem expand_text_outcome self mem arg text_ out :
  ∃ ok templ log r,
    parse self text_ empty_Template = Some (ok, templ, log) ∧
    expand_text self mem arg text_ out = Some (ok, r) ∧
    (ok = false ↔ log ≠ [] ∧ m_lenient self = false) ∧
    r = (if ok then expand mem arg templ out else Normal out) ∧
    os_flags (outcome_stream r) = os_flags out.
Proof.
  destruct (parse_total self text_ empty_Template) as (st & Hst & _ & Hparse).
  destruct (parse_loop_log self text_ _ _ _ (log_inv_init self text_) Hst)
    as [Herr _].
  unfold expand_text. rewrite Hparse. unfold parse_return.
  destruct (p_error st) eqn:He, (m_lenient self) eqn:Hl; simpl;
    eexists _, _, _, _; (split; [done|]); (split; [done|]); (split_and!; [|done|]).
  all: try (unfold expand;
            match goal with
            | |- context [expand_loop ?m ?a ?t ?f ?c ?s ?o] =>
                destruct (expand_loop m a t f c s o) as [os|os] eqn:Hloop; simpl;
                [by apply (expand_loop_flags _ _ _ _ _ _ _ _ eq_refl Hloop) | done]
            end).
  - split; [done|]. by intros [_ ?].
  - split; [|done]. intros _. split; [|done]. by apply Herr.
  - done.
  - split; [done|]. by intros [_ ?].
  - split; [done|]. intros [Hlog _]. apply Herr in Hlog. done.
Qed.

(** ** Leniency *)

(** Two states of the loop that differ in the levels of the log only. *)
Definition same_scan (st1 st2 : pstate (obj:=obj) (T:=T)) : Prop :=
  p_curr st1 = p_curr st2 ∧ p_substitutions st1 = p_substitutions st2 ∧
  p_error st1 = p_error st2 ∧ (p_log st1).*2 = (p_log st2).*2.

Definition same_scan_flow (fl1 fl2 : flow (obj:=obj) (T:=T)) : Prop :=
  match fl1, fl2 with
  | Break st1, Break st2 | Continue st1, Continue st2 => same_scan st1 st2
  | _, _ => False
  end.

Lemma same_scan_report self1 self2 st1 st2 msg curr :
  same_scan st1 st2 →
  same_scan (report self1 st1 msg curr) (report self2 st2 msg curr).
Proof.
  intros (Hc & Hs & He & Hl). split_and!; simpl; [done..|].
  by rewrite !fmap_app, Hl.
Qed.

Lemma same_scan_record st1 st2 i curr vd :
  same_scan st1 st2 → same_scan (record st1 i curr vd) (record st2 i curr vd).
Proof. intros (Hc & Hs & He & Hl). split_and!; simpl; [done | by rewrite Hs | done..]. Qed.

Lemma parse_body_same_scan self1 self2 text_ st1 st2 :
  m_variables self1 = m_variables self2 → same_scan st1 st2 →
  same_scan_flow (parse_body self1 text_ st1) (parse_body self2 text_ st2).
Proof.
  intros Hvars Hsame. pose proof Hsame as (Hc & _).
  assert (∀ i ch name c,
            same_scan_flow (lookup_and_record self1 text_ st1 i ch name c)
                           (lookup_and_record self2 text_ st2 i ch name c)) as Hlr.
  { intros i ch name c. unfold lookup_and_record. rewrite Hvars.
    destruct (decide (ch = "@"%char)); simpl; [by apply same_scan_record|].
    destruct (m_variables self2 !! name); simpl;
      [by apply same_scan_record | by apply same_scan_report]. }
  unfold parse_body. rewrite Hc.
  destruct (sv_find "@" text_ (p_curr st2)) as [i|]; simpl; [|done].
  destruct (i + 1 =? length text_); simpl.
  { rewrite <- Hc. by apply same_scan_report. }
  destruct (decide (sv_at text_ (i + 1) = "{"%char)); [|apply Hlr].
  destruct (sv_find "}" text_ (i + 2)); [apply Hlr|]. simpl.
  by apply same_scan_report.
Qed.

Lemma parse_loop_same_scan self1 self2 text_ fuel st1 st2 st1' :
  m_variables self1 = m_variables self2 → same_scan st1 st2 →
  parse_loop self1 text_ fuel st1 = Some st1' →
  ∃ st2', parse_loop self2 text_ fuel st2 = Some st2' ∧ same_scan st1' st2'.
Proof.
  intros Hvars. revert st1 st2.
  induction fuel as [|fuel IH]; simpl; intros st1 st2 Hsame; [done|].
  pose proof (parse_body_same_scan self1 self2 text_ st1 st2 Hvars Hsame) as Hb.
  destruct (parse_body self1 text_ st1) as [s1|s1],
           (parse_body self2 text_ st2) as [s2|s2]; simpl in Hb; try done.
  - intros [= <-]. by exists s2.
  - by apply IH.
Qed.

(** X10. Leniency changes the level of the diagnostics and the value
    returned, nothing else: two engines with the same variables log the same
    messages for a text and, when both return [true], build the same
    template; and what a strict engine accepts a lenient one accepts, with
    nothing logged by either. *)
Theorem leniency_changes_result_only self1 self2 text_ templ0 :
  m_variables self1 = m_variables self2 →
  ∃ ok1 templ1 log1 ok2 templ2 log2,
    parse self1 text_ templ0 = Some (ok1, templ1, log1) ∧
    parse self2 text_ templ0 = Some (ok2, templ2, log2) ∧
    log1.*2 = log2.*2 ∧
    (ok1 = true → ok2 = true → templ1 = templ2) ∧
    (m_lenient self1 = false → ok1 = true → ok2 = true ∧ log1 = [] ∧ log2 = []).
Proof.
  intros Hvars.
  destruct (parse_total self1 text_ templ0) as (st1 & Hst1 & _ & Hp1).
  destruct (parse_loop_same_scan self1 self2 text_ _ parse_init parse_init st1 Hvars
              ltac:(by split_and!) Hst1) as (st2 & Hst2 & Hc & Hs & He & Hl).
  destruct (parse_loop_log self1 text_ _ _ _ (log_inv_init self1 text_) Hst1)
    as [Herr1 _].
  destruct (parse_loop_log self2 text_ _ _ _ (log_inv_init self2 text_) Hst2)
    as [Herr2 _].
  rewrite Hp1, (parse_of_loop _ _ _ _ Hst2). unfold parse_return. rewrite <- He, <- Hs.
  destruct (p_error st1) eqn:E1.
  - destruct (m_lenient self1), (m_lenient self2); simpl;
      eexists _, _, _, _, _, _; (split; [done|]); (split; [done|]); by split_and!.
  - assert (p_log st1 = []) as Hn1.
    { destruct (p_log st1) as [|e l] eqn:El; [done|].
      assert (false = true) as Habs by (by apply Herr1). done. }
    assert (p_log st2 = []) as Hn2.
    { rewrite <- He in Herr2. destruct (p_log st2) as [|e l] eqn:El; [done|].
      assert (false = true) as Habs by (by apply Herr2). done. }
    simpl. eexists _, _, _, _, _, _. split; [done|]. split; [done|]. by split_and!.
Qed.

(** ** Later definitions *)

Lemma parse_body_more_variables self self' text_ st :
  (∀ name func, m_variables self !! name = Some func →
                m_variables self' !! name = Some func) →
  p_log (match parse_body self text_ st with Break st' | Continue st' => st' end)
    = p_log st →
  parse_body self' text_ st = parse_body self text_ st.
Proof.
  intros Hsub. unfold parse_body.
  assert (∀ l (e : LogEntry), l ++ [e] ≠ l) as Hne.
  { intros l e H. apply (f_equal length) in H. rewrite length_app in H. simpl in H. lia. }
  assert (∀ i ch name c,
            p_log (match lookup_and_record self text_ st i ch name c with
                   | Break st' | Continue st' => st' end) = p_log st →
            lookup_and_record self' text_ st i ch name c
            = lookup_and_record self text_ st i ch name c) as Hlr.
  { intros i ch name c. unfold lookup_and_record.
    destruct (decide (ch = "@"%char)); [done|].
    destruct (m_variables self !! name) as [func|] eqn:Hv.
    - by rewrite (Hsub _ _ Hv).
    - simpl. intros H. by apply Hne in H. }
  destruct (sv_find "@" text_ (p_curr st)) as [i|]; [|done].
  destruct (i + 1 =? length text_).
  { simpl. intros H. by apply Hne in H. }
  destruct (decide (sv_at text_ (i + 1) = "{"%char)); [|apply Hlr].
  destruct (sv_find "}" text_ (i + 2)); [apply Hlr|].
  simpl. intros H. by apply Hne in H.
Qed.

Lemma parse_loop_more_variables self self' text_ fuel st st' :
  (∀ name func, m_variables self !! name = Some func →
                m_variables self' !! name = Some func) →
  parse_loop self text_ fuel st = Some st' → p_log st' = p_log st →
  parse_loop self' text_ fuel st = Some st'.
Proof.
  intros Hsub. revert st. induction fuel as [|fuel IH]; simpl; intros st; [done|].
  intros Hrun Hlog.
  destruct (parse_body_log_grows self text_ st) as [l1 Hl1].
  pose proof (parse_body_more_variables self self' text_ st Hsub) as Hb.
  destruct (parse_body self text_ st) as [st1|st1] eqn:Hbody.
  - injection Hrun as ->. rewrite Hb; done.
  - destruct (parse_loop_log_grows self text_ fuel st1 st' Hrun) as [l2 Hl2].
    assert (l1 = []) as ->.
    { rewrite Hl2, Hl1, <- app_assoc in Hlog.
      rewrite <- (app_nil_r (p_log st)) in Hlog at 2.
      apply app_inv_head in Hlog. by apply app_eq_nil in Hlog as [? _]. }
    rewrite app_nil_r in Hl1. rewrite Hb by done.
    apply IH; [done|]. by rewrite Hlog, Hl1.
Qed.

(** X11. A definition made later does not change what a text compiles to
    when the text had no error: after [define] has added a variable, a text
    that parsed with nothing logged parses to the same template, again with
    nothing logged. *)
Theorem parse_stable_under_define self name func self' text_ templ0 templ :
  define name func self = Defined_ok self' →
  parse self text_ templ0 = Some (true, templ, []) →
  parse self' text_ templ0 = Some (true, templ, []).
Proof.
  intros Hdef Hparse. unfold define in Hdef.
  destruct (m_variables self !! name) eqn:Hfresh; [done|]. injection Hdef as <-.
  destruct (parse_total self text_ templ0) as (st & Hst & _ & Hp).
  destruct (parse_loop_log self text_ _ _ _ (log_inv_init self text_) Hst)
    as [Herr _].
  rewrite Hp in Hparse. unfold parse_return in Hparse.
  destruct (p_error st && negb (m_lenient self)) eqn:E; [done|].
  injection Hparse as <- Hlog.
  assert (p_error st = false) as He.
  { destruct (p_error st); [|done]. rewrite Hlog in Herr. by destruct Herr as [Herr _];
      specialize (Herr eq_refl). }
  set (self' := {| m_lenient := m_lenient self;
                   m_variables := <[name:=func]> (m_variables self) |}).
  assert (parse_loop self' text_ (S (length text_)) parse_init = Some st) as Hst'.
  { apply (parse_loop_more_variables self); [|done|done].
    intros n f Hn. simpl. rewrite lookup_insert_ne; [done|]. by intros ->; congruence. }
  rewrite (parse_of_loop _ _ _ _ Hst'). unfold parse_return. by rewrite He, Hlog.
Qed.

(** ** What expansion leaves alone *)

(** [out'] has the locale and the precision of [out], and the bytes of
    [out] with more behind them, maybe. *)
Definition extends (out out' : ostream) : Prop :=
  os_locale out' = os_locale out ∧ os_precision out' = os_precision out ∧
  os_buf out `prefix_of` os_buf out'.

Lemma extends_refl out : extends out out.
Proof. by split_and!. Qed.

Lemma extends_trans out1 out2 out3 : extends out1 out2 → extends out2 out3 → extends out1 out3.
Proof.
  intros (? & ? & ?) (? & ? & ?). split_and!; [congruence.. | by etrans].
Qed.

Lemma extends_os_write s out : extends out (outcome_stream (os_write s out)).
Proof.
  unfold os_write. repeat case_match; split_and!; simpl; try done;
    by apply prefix_app_r.
Qed.

Lemma extends_set_flags flags out : extends out (set_flags flags out).
Proof. by split_and!. Qed.

Lemma extends_and_then out r k :
  extends out (outcome_stream r) →
  (∀ os, extends os (outcome_stream (k os))) →
  extends out (outcome_stream (r >>> k)).
Proof.
  intros Hr Hk. destruct r as [os|os]; simpl in *; [|done].
  by apply (extends_trans _ os).
Qed.

(** X12. Expansion by itself only adds bytes to the stream and leaves its
    locale and precision alone: when every evaluator of the template does
    so, the expansion does so, whether it returns or throws. *)
Theorem expand_extends mem arg templ out :
  (∀ subst name func,
     subst ∈ m_substitutions templ → var_def subst = Some (name, func) →
     ∀ os, extends os (outcome_stream (func mem arg os))) →
  extends out (outcome_stream (expand mem arg templ out)).
Proof.
  intros Hevals. unfold expand.
  assert (∀ substs curr os,
            (∀ subst, subst ∈ substs → subst ∈ m_substitutions templ) →
            extends os (outcome_stream
                          (expand_loop mem arg (m_text templ) (os_flags out) curr substs os)))
    as Hloop.
  { induction substs as [|subst substs IH]; intros curr os Hin; simpl.
    - apply extends_os_write.
    - apply extends_and_then; [|intros os'; apply IH; intros s Hs; apply Hin; by right].
      unfold expand_body. apply extends_and_then; [apply extends_os_write|].
      intros os1. destruct (var_def subst) as [[name func]|] eqn:Hv.
      + apply extends_and_then; [|intros os2; apply extends_set_flags].
        apply (Hevals subst name func); [apply Hin; by left | done].
      + apply extends_os_write. }
  specialize (Hloop (m_substitutions templ) 0 out ltac:(done)).
  destruct (expand_loop mem arg (m_text templ) (os_flags out) 0 (m_substitutions templ) out)
    as [os|os]; simpl in *; [done|].
  by apply (extends_trans _ os); [|apply extends_set_flags].
Qed.
(** ** What parse returns *)

(** C4. [parse] returns, and it returns [false] exactly when a diagnostic was
    logged and the engine is not lenient. On failure the caller's template is
    what it was. On success, and so always when the engine is lenient, the
    template holds the text and the substitutions the scan found: each of
    them covers an escape or a reference to a defined variable, in the order
    of the text and without overlap, and every escape and every reference to
    a defined variable that stands behind a text whose references are all
    terminated has its substitution. A diagnostic is one of the three
    messages, logged at the level the leniency selects, and it says something
    true of the text; and each of the three errors, met behind a text whose
    references are all terminated, is logged: a marker at the end of the
    text, an opening brace with no closing brace behind it, a reference to a
    variable that is not defined. *)
Theorem parse_fails_iff_error_and_strict self text_ templ0 :
  ∃ ok templ log,
    parse self text_ templ0 = Some (ok, templ, log) ∧
    (ok = false ↔ log ≠ [] ∧ m_lenient self = false) ∧
    (if ok
     then m_text templ = text_ ∧
          Forall (covers self text_) (m_substitutions templ) ∧
          spans_chain 0 (length text_) (m_substitutions templ)
     else templ = templ0) ∧
    (m_lenient self = true → ok = true) ∧
    Forall (λ e : LogEntry, e.1 = log_level self ∧ justified self text_ e.2) log ∧
    ∀ head, terminated self head →
      (text_ = head ++ txt "@" → (log_level self, UnterminatedMarker) ∈ log) ∧
      (∀ tail, text_ = head ++ txt "@{" ++ tail → "}"%char ∉ tail →
               (log_level self, UnterminatedBrace) ∈ log) ∧
      (∀ ref name post, text_ = head ++ ref ++ post → reference ref name →
                        m_variables self !! name = None →
                        (log_level self, UndefinedVariable name ref) ∈ log) ∧
      (∀ post, text_ = head ++ txt "@@" ++ post → ok = true →
               {| s_begin := length head; s_end := length head + 2; var_def := None |}
               ∈ m_substitutions templ) ∧
      (∀ ref name func post,
         text_ = head ++ ref ++ post → reference ref name →
         m_variables self !! name = Some func → ok = true →
         {| s_begin := length head; s_end := length head + length ref;
            var_def := Some (name, func) |} ∈ m_substitutions templ).
Proof.
  destruct (parse_total self text_ templ0) as (st & Hst & [Hcur Hchain] & ->).
  destruct (parse_loop_log self text_ _ _ _ (log_inv_init self text_) Hst)
    as [Herr Hall].
  pose proof (parse_loop_covers self text_ _ parse_init st (Forall_nil_2 _) Hst) as Hcov.
  assert (∃ ok templ, parse_return self text_ templ0 st = (ok, templ, p_log st) ∧
            (ok = false ↔ p_log st ≠ [] ∧ m_lenient self = false) ∧
            (if ok
             then m_text templ = text_ ∧
                  Forall (covers self text_) (m_substitutions templ) ∧
                  spans_chain 0 (length text_) (m_substitutions templ)
             else templ = templ0) ∧
            (m_lenient self = true → ok = true) ∧
            (ok = true → m_substitutions templ = p_substitutions st))
    as (ok & templ & -> & Hiff & Hif & Hlen & Hsubs).
  { assert (spans_chain 0 (length text_) (p_substitutions st)) as Hchain'
      by (by eapply spans_chain_weaken).
    unfold parse_return.
    destruct (p_error st) eqn:He, (m_lenient self) eqn:Hl; simpl;
      eexists _, _; (split; [done|]); (split_and!; [|done..]).
    - split; [done|]. by intros [_ ?].
    - split; [|done]. intros _. split; [|done]. by apply Herr.
    - split; [done|]. by intros [_ ?].
    - split; [done|]. intros [Hlog _]. apply Herr in Hlog. done. }
  exists ok, templ, (p_log st). split; [done|]. split; [done|]. split; [done|].
  split; [done|]. split; [done|].
  intros head (st_h & Hhead & Hlog). split_and!.
  - intros ->.
    destruct (parse_loop_concat self head (txt "@") st_h Hhead Hlog)
      as (st_r & st' & Hr & Hfull & _ & _ & _ & Hl).
    rewrite Hst in Hfull. injection Hfull as <-.
    rewrite parse_loop_marker_at_end in Hr. injection Hr as <-.
    rewrite Hl. apply elem_of_app. right. simpl. by left.
  - intros tail -> Htail.
    destruct (parse_loop_concat self head (txt "@{" ++ tail) st_h Hhead Hlog)
      as (st_r & st' & Hr & Hfull & _ & _ & _ & Hl).
    rewrite Hst in Hfull. injection Hfull as <-.
    rewrite Hl. apply elem_of_app. right.
    by apply (parse_loop_open_brace self tail).
  - intros ref name post -> Href Hname.
    pose proof (parse_body_reference self [] ref name post parse_init Href
                  ltac:(apply not_elem_of_nil) eq_refl) as Hbody.
    rewrite Hname in Hbody. simpl app in Hbody.
    destruct (parse_loop_concat_front self head ref post st_h _ Hhead Hlog Hbody eq_refl)
      as (st_p & st' & _ & Hfull & _ & _ & _ & Hl).
    rewrite Hst in Hfull. injection Hfull as <-.
    rewrite Hl. apply elem_of_app. right. simpl. by left.
  - intros post -> Hok. rewrite (Hsubs Hok).
    destruct (parse_loop_concat_front self head (txt "@@") post st_h
                (record parse_init 0 2 None) Hhead Hlog)
      as (st_p & st' & _ & Hfull & _ & Hs & _ & _);
      [exact (parse_body_escape self [] post parse_init ltac:(apply not_elem_of_nil) eq_refl)
      | done |].
    rewrite Hst in Hfull. injection Hfull as <-.
    rewrite Hs. apply elem_of_app. right. simpl. apply elem_of_cons. left.
    unfold shift_subst; simpl. f_equal; lia.
  - intros ref name func post -> Href Hname Hok. rewrite (Hsubs Hok).
    pose proof (parse_body_reference self [] ref name post parse_init Href
                  ltac:(apply not_elem_of_nil) eq_refl) as Hbody.
    rewrite Hname in Hbody. simpl app in Hbody.
    destruct (parse_loop_concat_front self head ref post st_h _ Hhead Hlog Hbody eq_refl)
      as (st_p & st' & _ & Hfull & _ & Hs & _ & _).
    rewrite Hst in Hfull. injection Hfull as <-.
    rewrite Hs. apply elem_of_app. right. simpl. apply elem_of_cons. left.
    unfold shift_subst; simpl. f_equal; lia.
Qed.

End More.

(** * The further properties at the worked instance *)

Lemma parse_substitutions_cover_witness :
  ∃ templ,
    parse ex_subst (txt "<@x:@y>") empty_Template = Some (true, templ, []) ∧
    Forall (covers ex_subst (m_text templ)) (m_substitutions templ).
Proof.
  eexists. split; [vm_compute; reflexivity|].
  exact (parse_substitutions_cover ex_subst (txt "<@x:@y>") empty_Template _ [] eq_refl).
Defined.

Lemma refers_to_parsed_witness :
  ∃ templ,
    parse ex_subst (txt "<@x:@y>") empty_Template = Some (true, templ, []) ∧
    refers_to templ (txt "x") = true ∧
    is_Some (m_variables ex_subst !! txt "x") ∧
    refers_to templ (txt "z") = false.
Proof.
  eexists. split; [vm_compute; reflexivity|]. split; [reflexivity|].
  split; [|reflexivity].
  exact (proj1 (proj1 (refers_to_parsed ex_subst (txt "<@x:@y>") empty_Template _ []
                         (txt "x") eq_refl) eq_refl)).
Defined.

Lemma text_without_marker_unchanged_witness :
  ("@"%char ∉ txt "plain text") ∧
  parse ex_subst (txt "plain text") empty_Template =
    Some (true, {| m_text := txt "plain text"; m_substitutions := [] |}, []) ∧
  ∀ (mem : store (T:=N)) (arg : list ctx_obj) global,
    expand_string mem arg global {| m_text := txt "plain text"; m_substitutions := [] |}
      = Some (txt "plain text").
Proof.
  assert ("@"%char ∉ txt "plain text") as Hnot by compute_done.
  split; [exact Hnot|].
  destruct (text_without_marker_unchanged ex_subst (txt "plain text") empty_Template Hnot)
    as (Hparse & _ & Hstr & _).
  split; [exact Hparse | exact Hstr].
Defined.

Lemma reference_alone_calls_evaluator_witness :
  reference (txt "@y") (txt "y") ∧
  m_variables ex_subst !! txt "y" = Some ex_eval_y ∧
  ∃ templ,
    parse ex_subst (txt "@y") empty_Template = Some (true, templ, []) ∧
    refers_to templ (txt "y") = true ∧
    ∀ mem arg out,
      expand mem arg templ out = call_restoring (os_flags out) (ex_eval_y mem arg out).
Proof.
  assert (reference (txt "@y") (txt "y")) as Href
    by (apply (reference_short "y"); discriminate).
  assert (m_variables ex_subst !! txt "y" = Some ex_eval_y) as Hvar by reflexivity.
  split; [exact Href|]. split; [exact Hvar|].
  exact (reference_alone_calls_evaluator ex_subst (txt "@y") (txt "y") ex_eval_y
           empty_Template Href Hvar).
Defined.

Lemma field_binding_prints_member_witness :
  ("}"%char ∉ txt "id") ∧
  ∃ self' k templ,
    define_field ex_conv ex_pack ex_put (txt "id") ty_Base ex_id (new_Substituter false)
      = Defined_ok self' ∧
    FindArg1 ex_conv ty_Base ex_pack = Some k ∧
    parse self' (txt "@{id}") empty_Template = Some (true, templ, []) ∧
    ∀ mem arg o out,
      arg !! k = Some o →
      expand mem arg templ out = call_restoring (os_flags out) (ex_put (ex_id o) out).
Proof.
  assert ("}"%char ∉ txt "id") as Hname by compute_done.
  split; [exact Hname|].
  destruct (field_binding_prints_member ex_conv ex_pack ex_put (new_Substituter false)
              (txt "id") ty_Base ex_id _ empty_Template Hname eq_refl)
    as (k & A & templ & Hk & _ & _ & Hparse & Hexp).
  eexists _, k, templ. split; [reflexivity|]. split; [exact Hk|].
  split; [exact Hparse | exact Hexp].
Defined.

Lemma parse_expand_concat_witness :
  terminated ex_subst (txt "<@x>") ∧
  ∃ templ_h templ_r templ,
    parse ex_subst (txt "<@x>") empty_Template = Some (true, templ_h, []) ∧
    parse ex_subst (txt ":@y") empty_Template = Some (true, templ_r, []) ∧
    parse ex_subst (txt "<@x>:@y") empty_Template = Some (true, templ, []) ∧
    ∀ mem arg out,
      expand mem arg templ out = expand mem arg templ_h out >>> expand mem arg templ_r.
Proof.
  assert (terminated ex_subst (txt "<@x>")) as Hhead
    by (eexists; split; vm_compute; reflexivity).
  split; [exact Hhead|].
  destruct (parse_expand_concat ex_subst (txt "<@x>") (txt ":@y") empty_Template Hhead)
    as (ok_h & templ_h & log_h & ok_r & templ_r & log_r & templ & Hh & Hr & Hfull & Hcase).
  assert (ok_h = true ∧ log_h = []) as [-> ->].
  { pose proof Hh as Hh'. vm_compute in Hh'. by injection Hh' as <- _ <-. }
  assert (ok_r = true ∧ log_r = []) as [-> ->].
  { pose proof Hr as Hr'. vm_compute in Hr'. by injection Hr' as <- _ <-. }
  exists templ_h, templ_r, templ.
  split; [exact Hh|]. split; [exact Hr|]. split; [exact Hfull|].
  exact (proj2 (proj2 Hcase)).
Defined.

Lemma unterminated_brace_resumes_witness :
  terminated ex_lenient (txt "a@x") ∧ ("}"%char ∉ txt "b@x") ∧
  ∃ templ_h log_h templ_t log_t templ,
    parse ex_lenient (txt "a@x") empty_Template = Some (true, templ_h, log_h) ∧
    parse ex_lenient (txt "b@x") empty_Template = Some (true, templ_t, log_t) ∧
    parse ex_lenient (txt "a@x@{b@x") empty_Template =
      Some (true, templ, log_h ++ (level_warn, UnterminatedBrace) :: log_t) ∧
    ∀ mem arg out,
      expand mem arg templ out =
      expand mem arg templ_h out >>> os_write (txt "@{") >>> expand mem arg templ_t.
Proof.
  assert (terminated ex_lenient (txt "a@x")) as Hhead
    by (eexists; split; vm_compute; reflexivity).
  assert ("}"%char ∉ txt "b@x") as Htail by compute_done.
  split; [exact Hhead|]. split; [exact Htail|].
  destruct (unterminated_brace_resumes ex_lenient (txt "a@x") (txt "b@x") empty_Template
              Hhead Htail)
    as (ok_h & templ_h & log_h & ok_t & templ_t & log_t & templ & Hh & Ht & Hfull & Hcase).
  assert (ok_h = true) as ->.
  { pose proof Hh as Hh'. vm_compute in Hh'. by injection Hh' as <- _ _. }
  assert (ok_t = true) as ->.
  { pose proof Ht as Ht'. vm_compute in Ht'. by injection Ht' as <- _ _. }
  exists templ_h, log_h, templ_t, log_t, templ.
  split; [exact Hh|]. split; [exact Ht|]. split; [exact Hfull|].
  exact (proj2 Hcase).
Defined.

Lemma trailing_marker_kept_witness :
  terminated ex_lenient (txt "a@x") ∧
  ∃ templ_h log_h templ,
    parse ex_lenient (txt "a@x") empty_Template = Some (true, templ_h, log_h) ∧
    parse ex_lenient (txt "a@x@") empty_Template =
      Some (true, templ, log_h ++ [(level_warn, UnterminatedMarker)]) ∧
    ∀ mem arg out,
      expand mem arg templ out = expand mem arg templ_h out >>> os_write (txt "@").
Proof.
  assert (terminated ex_lenient (txt "a@x")) as Hhead
    by (eexists; split; vm_compute; reflexivity).
  split; [exact Hhead|].
  destruct (trailing_marker_kept ex_lenient (txt "a@x") empty_Template Hhead)
    as (ok_h & templ_h & log_h & templ & Hh & Hfull & Hcase).
  assert (ok_h = true) as ->.
  { pose proof Hh as Hh'. vm_compute in Hh'. by injection Hh' as <- _ _. }
  exists templ_h, log_h, templ. split; [exact Hh|]. split; [exact Hfull|].
  exact (proj2 Hcase).
Defined.

Lemma leniency_changes_result_only_witness :
  let strict : Substituter (obj:=ctx_obj) (T:=N) :=
    {| m_lenient := false; m_variables := m_variables ex_lenient |} in
  m_variables ex_lenient = m_variables strict ∧
  ∃ ok1 templ1 log1 ok2 templ2 log2,
    parse ex_lenient (txt "a@{u}b@x") empty_Template = Some (ok1, templ1, log1) ∧
    parse strict (txt "a@{u}b@x") empty_Template = Some (ok2, templ2, log2) ∧
    ok1 = true ∧ ok2 = false ∧ log1.*2 = log2.*2.
Proof.
  intros strict. split; [reflexivity|].
  destruct (leniency_changes_result_only ex_lenient strict (txt "a@{u}b@x") empty_Template
              eq_refl)
    as (ok1 & templ1 & log1 & ok2 & templ2 & log2 & H1 & H2 & Hlog & _).
  exists ok1, templ1, log1, ok2, templ2, log2.
  split; [exact H1|]. split; [exact H2|].
  split; [|split; [|exact Hlog]].
  - pose proof H1 as H1'. vm_compute in H1'. by injection H1' as <- _ _.
  - pose proof H2 as H2'. vm_compute in H2'. by injection H2' as <- _ _.
Defined.

Lemma parse_stable_under_define_witness :
  ∃ self' templ,
    define (txt "z") ex_eval_hex ex_subst = Defined_ok self' ∧
    parse ex_subst (txt "<@x:@y>") empty_Template = Some (true, templ, []) ∧
    parse self' (txt "<@x:@y>") empty_Template = Some (true, templ, []).
Proof.
  eexists _, _. split; [reflexivity|].
  assert (parse ex_subst (txt "<@x:@y>") empty_Template = Some (true, _, [])) as Hparse
    by (vm_compute; reflexivity).
  split; [exact Hparse|].
  exact (parse_stable_under_define ex_subst (txt "z") ex_eval_hex _ (txt "<@x:@y>")
           empty_Template _ eq_refl Hparse).
Defined.

Lemma expand_extends_witness :
  let templ : Template (obj:=ctx_obj) (T:=N) :=
    {| m_text := txt "<@y>";
       m_substitutions :=
         [{| s_begin := 1; s_end := 3; var_def := Some (txt "y", ex_eval_y) |}] |} in
  parse ex_subst (txt "<@y>") empty_Template = Some (true, templ, []) ∧
  ∀ out, extends out (outcome_stream (expand ex_mem [CtxA 0 1; CtxB 0 2] templ out)).
Proof.
  intros templ. split; [vm_compute; reflexivity|]. intros out.
  apply (expand_extends ex_mem [CtxA 0 1; CtxB 0 2] templ out).
  intros subst name func Hin Hv os.
  apply list_elem_of_singleton in Hin. subst subst. simpl in Hv.
  injection Hv as _ <-. unfold ex_eval_y, ex_put. apply extends_os_write.
Defined.

(** ** Expansion in two memories *)

(** C8, the claim as stated fails: a template with a value binding, expanded
    twice with the same context arguments, writes 7 when the object pointed
    to holds 7 and 8 when it holds 8. *)
Lemma same_context_different_text :
  ∃ templ,
    parse ex_lenient (txt "@x") empty_Template = Some (true, templ, []) ∧
    expand_string (λ _, 7%N) [CtxA 0 0; CtxB 0 0] locale_classic templ = Some (txt "7") ∧
    expand_string (λ _, 8%N) [CtxA 0 0; CtxB 0 0] locale_classic templ = Some (txt "8") ∧
    expand_string (λ _, 7%N) [CtxA 0 0; CtxB 0 0] locale_classic templ ≠
    expand_string (λ _, 8%N) [CtxA 0 0; CtxB 0 0] locale_classic templ.
Proof. eexists. split; [vm_compute; reflexivity|]. by vm_compute. Qed.

Lemma expand_string_deterministic_witness :
  let templ : Template (obj:=ctx_obj) (T:=N) :=
    {| m_text := txt "@x";
       m_substitutions :=
         [{| s_begin := 0; s_end := 2;
             var_def := Some (txt "x", value_eval ex_put 0) |}] |} in
  let mem1 : store (T:=N) := λ a, if a =? 0 then 7%N else 1%N in
  let mem2 : store (T:=N) := λ _, 7%N in
  parse ex_lenient (txt "@x") empty_Template = Some (true, templ, []) ∧
  expand_string mem1 [CtxA 0 0] locale_classic templ =
  expand_string mem2 [CtxA 0 0] (locale_named "de_DE") templ ∧
  expand_string mem1 [CtxA 0 0] locale_classic templ = Some (txt "7").
Proof.
  intros templ mem1 mem2. split; [vm_compute; reflexivity|]. split; [|by vm_compute].
  apply (expand_string_deterministic ex_put mem1 mem2 [CtxA 0 0] templ).
  intros subst name func Hin Hv out.
  apply list_elem_of_singleton in Hin. subst subst. simpl in Hv.
  injection Hv as _ <-. reflexivity.
Defined.
